(** * mapsdrawer: the annotation engine of [src/main.js]

    A shallow embedding of the walking-path drawer: time formatting, path
    geometry, label layout, the registry of drawn lines and the bounded undo
    stack, followed by the properties of the specification.

    Conventions.
    - A JavaScript number is read as an exact rational ([Q]); the rounding
      error of double arithmetic is not modelled.  A division whose divisor
      can be zero is modelled by [js_div], which has no finite result there
      (JavaScript yields NaN or an infinity).
    - Counters and minute counts are integers ([Z]).
    - [latlng.distanceTo] belongs to Leaflet and is a parameter of the
      development ([distanceTo]).
    - The DOM sidebar and the summary panel are write-only views
      ([updateResults]); they are not part of the state. *)

From Stdlib Require Import ZArith QArith Qround Qabs Lqa String.
From Stdlib Require Import DecimalString DecimalPos DecimalZ.
From stdpp Require Import gmap strings list fin_maps.

Local Open Scope Z_scope.

(** ** Numbers and text *)

(** [Math.round]: the nearest integer, a tie going up. *)
Definition Math_round (x : Q) : Z := Qfloor (x + (1 # 2))%Q.

(** [`${n}`] for an integer [n]: its decimal numeral. *)
Definition string_of_Z (n : Z) : string := NilZero.string_of_int (Z.to_int n).

(** [x / y] where [y] may be zero: no finite value then. *)
Definition js_div (x y : Q) : option Q :=
  if Qeq_bool y 0 then None else Some (x / y)%Q.

Definition WALKING_SPEED_FT_PER_SEC : Q := 3 # 1.
Definition METERS_TO_FEET : Q := 328084 # 100000.

Definition LINE_COLORS : list string :=
  ["#3388ff"; "#ff6b6b"; "#4ecdc4"; "#45b7d1";
   "#96ceb4"; "#ffeaa7"; "#dfe6e9"; "#fd79a8"]%string.

Definition MAX_UNDO : nat := 10.

(** [formatTime]: the short form used by the map labels. *)
Definition formatTime (seconds : Q) : string :=
  let mins := Math_round (seconds / (60 # 1))%Q in
  if mins =? 0 then "<1m"%string
  else (string_of_Z mins ++ "m")%string.

(** [formatTimeLong]: the long form used by the sidebar and the summary. *)
Definition formatTimeLong (seconds : Q) : string :=
  let mins := Math_round (seconds / (60 # 1))%Q in
  if mins =? 0 then "<1 min"%string
  else if mins =? 1 then "1 min"%string
  else (string_of_Z mins ++ " min")%string.

(** ** Geometry *)

Record LatLng : Type := mkLatLng { lat : Q; lng : Q }.


(** What [polyline.getLatLngs()] returns: a flat array of points, or an array
    of rings for a multi-polyline. *)
Inductive LatLngs : Type :=
  | Flat (points : list LatLng)
  | Nested (rings : list (list LatLng)).

(** [Array.isArray(latlngs[0]) ? latlngs[0] : latlngs], which is also what
    [if (latlngs.length > 0 && Array.isArray(latlngs[0])) latlngs = latlngs[0]]
    computes. *)
Definition flattenLatLngs (latlngs : LatLngs) : list LatLng :=
  match latlngs with
  | Flat points => points
  | Nested [] => []
  | Nested (ring :: _) => ring
  end.

Definition getSegmentMidpoint (a b : LatLng) : LatLng :=
  {| lat := (lat a + lat b) / (2 # 1); lng := (lng a + lng b) / (2 # 1) |}%Q.

Record Segment : Type := mkSegment
  { seg_start : LatLng; seg_end : LatLng; seg_length : Q }.

(** The result of [getMidpoint]: [null], a point, or a point whose
    coordinates are not finite numbers because the interpolation ratio was
    computed by a division by zero ([L.latLng] throws when they are NaN). *)
Inductive Midpoint : Type :=
  | MidNull
  | MidAt (p : LatLng)
  | MidNotFinite.

(** The point at fraction [ratio] of a segment. *)
Definition lerp (seg : Segment) (ratio : Q) : LatLng :=
  {| lat := lat (seg_start seg) + (lat (seg_end seg) - lat (seg_start seg)) * ratio;
     lng := lng (seg_start seg) + (lng (seg_end seg) - lng (seg_start seg)) * ratio |}%Q.

(** The body of the branch taken inside the second loop of [getMidpoint]. *)
Definition interpolate (midDistance accumulated : Q) (seg : Segment) : Midpoint :=
  match js_div (midDistance - accumulated)%Q (seg_length seg) with
  | Some ratio => MidAt (lerp seg ratio)
  | None => MidNotFinite
  end.

(** The second loop of [getMidpoint]: [Some r] when it returns [r] from inside
    the loop, [None] when it runs to its end. *)
Fixpoint midLoop (midDistance accumulated : Q) (segments : list Segment)
  : option Midpoint :=
  match segments with
  | [] => None
  | seg :: rest =>
      if Qle_bool midDistance (accumulated + seg_length seg)%Q
      then Some (interpolate midDistance accumulated seg)
      else midLoop midDistance (accumulated + seg_length seg)%Q rest
  end.

(** The segment at which the loop's test first succeeds, with the length
    accumulated before it. *)
Fixpoint findSegment (midDistance accumulated : Q) (segments : list Segment)
  : option (Segment * Q) :=
  match segments with
  | [] => None
  | seg :: rest =>
      if Qle_bool midDistance (accumulated + seg_length seg)%Q
      then Some (seg, accumulated)
      else findSegment midDistance (accumulated + seg_length seg)%Q rest
  end.

(** The total length of a list of segments. *)
Fixpoint sumLengths (segments : list Segment) : Q :=
  match segments with
  | [] => 0
  | seg :: rest => seg_length seg + sumLengths rest
  end.

Section Geometry.

(** Leaflet's [a.distanceTo(b)], in meters. *)
Variable distanceTo : LatLng → LatLng → Q.

(** [calculateDistance]: the length of a polyline in feet. *)
Fixpoint sumMeters (latlngs : list LatLng) (totalMeters : Q) : Q :=
  match latlngs with
  | a :: (b :: _) as rest => sumMeters rest (totalMeters + distanceTo a b)%Q
  | _ => totalMeters
  end.

Definition calculateDistance (latlngs : list LatLng) : Q :=
  (sumMeters latlngs 0 * METERS_TO_FEET)%Q.

(** The first loop of [getMidpoint]: the segments and their total length. *)
Fixpoint collectSegments (latlngs : list LatLng) (totalLength : Q)
    (segments : list Segment) : Q * list Segment :=
  match latlngs with
  | a :: (b :: _) as rest =>
      let segLength := distanceTo a b in
      collectSegments rest (totalLength + segLength)%Q
        (segments ++ [mkSegment a b segLength])
  | _ => (totalLength, segments)
  end.

(** The segments of a polyline, in order. *)
Fixpoint segmentsOf (latlngs : list LatLng) : list Segment :=
  match latlngs with
  | a :: (b :: _) as rest => mkSegment a b (distanceTo a b) :: segmentsOf rest
  | _ => []
  end.

(** [getMidpoint]. *)
Definition getMidpoint (latlngs : list LatLng) : Midpoint :=
  match latlngs with
  | [] => MidNull
  | [p] => MidAt p
  | _ =>
      let '(totalLength, segments) := collectSegments latlngs 0%Q [] in
      let midDistance := (totalLength / (2 # 1))%Q in
      match midLoop midDistance 0%Q segments with
      | Some r => r
      | None =>
          match nth_error latlngs (Nat.div (length latlngs) 2) with
          | Some p => MidAt p
          | None => MidNull
          end
      end
  end.

End Geometry.

(** ** Labels on the map *)

(** A Leaflet marker carrying a text label: where it stands and what its
    [divIcon] shows (class name, text of the [div], background colour). *)
Record Marker : Type := mkMarker
  { marker_latlng : LatLng;
    marker_className : string;
    marker_text : string;
    marker_color : string }.

(** A marker once it has been added to a layer group: Leaflet stamps it with
    an id, the handle by which [removeLayer] finds it again. *)
Record Label : Type := mkLabel { label_id : N; label_marker : Marker }.

Definition createSegmentLabel (latlng : LatLng) (text color : string) : Marker :=
  mkMarker latlng "line-label" text color.

Definition createTotalLabel (latlng : LatLng) (text color : string) : Marker :=
  mkMarker latlng "line-label total-label" ("Total: " ++ text) color.

(** ** The registry and the undo stack *)

Record LineData : Type := mkLineData
  { polyline : LatLngs;
    labels : list Label;
    color : string;
    number : Z }.

Inductive UndoAction : Type :=
  | ActCreate (lineId : string)
  | ActDelete (lineId : string) (latlngs : list LatLng) (color : string) (number : Z).

Record State : Type := mkState
  { lineCounter : Z;
    lines : gmap string LineData;
    undoStack : list UndoAction;
    labelsLayer : gmap N Marker;
    lastId : N }.

Definition init : State := mkState 0 ∅ [] ∅ 0%N.

Definition set_lines (f : gmap string LineData → gmap string LineData) (s : State) : State :=
  mkState (lineCounter s) (f (lines s)) (undoStack s) (labelsLayer s) (lastId s).

Definition set_undoStack (f : list UndoAction → list UndoAction) (s : State) : State :=
  mkState (lineCounter s) (lines s) (f (undoStack s)) (labelsLayer s) (lastId s).

Definition set_labelsLayer (f : gmap N Marker → gmap N Marker) (s : State) : State :=
  mkState (lineCounter s) (lines s) (undoStack s) (f (labelsLayer s)) (lastId s).

(** [pushUndo]: append, then drop the oldest entry when over capacity. *)
Definition pushUndo (action : UndoAction) (stack : list UndoAction) : list UndoAction :=
  let stack := stack ++ [action] in
  if (MAX_UNDO <? length stack)%nat then tail stack else stack.

(** [Array.prototype.pop]: the last element and the rest, if any. *)
Definition pop {A} (stack : list A) : option (A * list A) :=
  match last stack with
  | Some a => Some (a, removelast stack)
  | None => None
  end.

(** [array[i]] for an integer index: [undefined] out of range. *)
Definition js_index {A} (l : list A) (i : Z) : option A :=
  if i <? 0 then None else nth_error l (Z.to_nat i).

(** [`line-${number}`]. *)
Definition lineId_of (number : Z) : string := ("line-" ++ string_of_Z number)%string.

(** [LINE_COLORS[(lineCounter - 1) % LINE_COLORS.length]]; [%] is the
    truncating remainder. *)
Definition lineColor (counter : Z) : string :=
  default "undefined"%string
    (js_index LINE_COLORS (Z.rem (counter - 1) (Z.of_nat (length LINE_COLORS)))).

(** [labels.forEach(label => labelsLayer.removeLayer(label))]. *)
Definition removeLabels (ls : list Label) (layer : gmap N Marker) : gmap N Marker :=
  foldl (λ layer label, delete (label_id label) layer) layer ls.

(** The labels being rebuilt for one line: the layer group, Leaflet's id
    counter and the line's [labels] array. *)
Record Rendered : Type := mkRendered
  { r_layer : gmap N Marker; r_lastId : N; r_labels : list Label }.

(** [lineData.labels.push(label); labelsLayer.addLayer(label)]. *)
Definition addLabel (m : Marker) (r : Rendered) : Rendered :=
  let id := (r_lastId r + 1)%N in
  mkRendered (<[id := m]> (r_layer r)) id (r_labels r ++ [mkLabel id m]).

Section Engine.

Variable distanceTo : LatLng → LatLng → Q.

(** The per-segment loop of [updateLineLabel]. *)
Fixpoint segmentLoop (latlngs : list LatLng) (color : string)
    (totalFeet : Q) (r : Rendered) : Q * Rendered :=
  match latlngs with
  | a :: (b :: _) as rest =>
      let segmentMeters := distanceTo a b in
      let segmentFeet := (segmentMeters * METERS_TO_FEET)%Q in
      let totalFeet := (totalFeet + segmentFeet)%Q in
      let segmentSeconds := (segmentFeet / WALKING_SPEED_FT_PER_SEC)%Q in
      let midpoint := getSegmentMidpoint a b in
      let label := createSegmentLabel midpoint (formatTime segmentSeconds) color in
      segmentLoop rest color totalFeet (addLabel label r)
  | _ => (totalFeet, r)
  end.

(** [updateLineLabel]: throw the line's labels away and build them anew. *)
Definition updateLineLabel (lineId : string) (s : State) : State :=
  match lines s !! lineId with
  | None => s
  | Some lineData =>
      let layer := removeLabels (labels lineData) (labelsLayer s) in
      let latlngs := flattenLatLngs (polyline lineData) in
      let r :=
        match latlngs with
        | first :: _ :: _ =>
            let '(totalFeet, r) :=
              segmentLoop latlngs (color lineData) 0%Q (mkRendered layer (lastId s) []) in
            let totalSeconds := (totalFeet / WALKING_SPEED_FT_PER_SEC)%Q in
            let endPoint := List.last latlngs first in
            addLabel (createTotalLabel endPoint (formatTime totalSeconds) (color lineData)) r
        | _ => mkRendered layer (lastId s) []
        end in
      mkState (lineCounter s)
        (<[lineId := mkLineData (polyline lineData) (r_labels r)
                       (color lineData) (number lineData)]> (lines s))
        (undoStack s) (r_layer r) (r_lastId r)
  end.

(** [removeLineFromMap]: no undo entry. *)
Definition removeLineFromMap (lineId : string) (s : State) : State :=
  match lines s !! lineId with
  | Some lineData =>
      set_lines (delete lineId)
        (set_labelsLayer (removeLabels (labels lineData)) s)
  | None => s
  end.

(** [deleteLine]: the sidebar's delete, which records an undo entry. *)
Definition deleteLine (lineId : string) (s : State) : State :=
  match lines s !! lineId with
  | Some lineData =>
      removeLineFromMap lineId
        (set_undoStack
           (pushUndo (ActDelete lineId (flattenLatLngs (polyline lineData))
                        (color lineData) (number lineData))) s)
  | None => s
  end.

(** The handler of [L.Draw.Event.CREATED]; the draw tool hands over a
    polyline with a flat vertex array. *)
Definition onCreated (vertices : list LatLng) (s : State) : State :=
  let counter := lineCounter s + 1 in
  let lineId := lineId_of counter in
  let color := lineColor counter in
  let lineData := mkLineData (Flat vertices) [] color counter in
  updateLineLabel lineId
    (mkState counter (<[lineId := lineData]> (lines s))
       (pushUndo (ActCreate lineId) (undoStack s)) (labelsLayer s) (lastId s)).

(** The edit tool has written new vertices into the layer of a line. *)
Definition setLatLngs (s : State) (edit : string * list LatLng) : State :=
  set_lines (alter (λ d, mkLineData (Flat edit.2) (labels d) (color d) (number d)) edit.1) s.

(** The handler of [L.Draw.Event.EDITED], run once the tool has changed the
    layers: it rebuilds the labels of every edited layer. *)
Definition onEdited (edits : list (string * list LatLng)) (s : State) : State :=
  foldl (λ s lineId, updateLineLabel lineId s) (foldl setLatLngs s edits) (edits.*1).

(** One layer in the handler of [L.Draw.Event.DELETED] (the tool's own
    delete mode): no undo entry. *)
Definition onDeletedLayer (s : State) (lineId : string) : State :=
  let layer :=
    match lines s !! lineId with
    | Some lineData => removeLabels (labels lineData) (labelsLayer s)
    | None => labelsLayer s
    end in
  mkState (lineCounter s) (delete lineId (lines s)) (undoStack s) layer (lastId s).

Definition onDeleted (lineIds : list string) (s : State) : State :=
  foldl onDeletedLayer s lineIds.

(** The [clear-btn] handler. *)
Definition clearAll (s : State) : State :=
  mkState (lineCounter s) ∅ (undoStack s) ∅ (lastId s).

(** [restoreLine]. *)
Definition restoreLine (latlngs : list LatLng) (color : string) (number : Z)
    (s : State) : State :=
  let lineId := lineId_of number in
  updateLineLabel lineId
    (set_lines (insert lineId (mkLineData (Flat latlngs) [] color number)) s).

(** The undo command: the body of the key handler once Ctrl+Z is
    recognised. *)
Definition undo (s : State) : State :=
  match pop (undoStack s) with
  | None => s
  | Some (action, rest) =>
      let s := set_undoStack (λ _, rest) s in
      match action with
      | ActCreate lineId => removeLineFromMap lineId s
      | ActDelete _ latlngs color number => restoreLine latlngs color number s
      end
  end.

Record KeyEvent : Type := mkKeyEvent
  { ctrlKey : bool; metaKey : bool; key : string }.

(** The [keydown] handler. *)
Definition onKeyDown (e : KeyEvent) (s : State) : State :=
  if (ctrlKey e || metaKey e) && String.eqb (key e) "z" then undo s else s.

(** What can happen to the engine. *)
Inductive Event : Type :=
  | DrawCreated (vertices : list LatLng)
  | DrawEdited (edits : list (string * list LatLng))
  | DrawDeleted (lineIds : list string)
  | ClickDelete (lineId : string)
  | ClickClear
  | KeyDown (e : KeyEvent).

Definition step (s : State) (ev : Event) : State :=
  match ev with
  | DrawCreated vertices => onCreated vertices s
  | DrawEdited edits => onEdited edits s
  | DrawDeleted lineIds => onDeleted lineIds s
  | ClickDelete lineId => deleteLine lineId s
  | ClickClear => clearAll s
  | KeyDown e => onKeyDown e s
  end.

Definition run (evs : list Event) : State := foldl step init evs.

(** The states the engine can be in. *)
Inductive reachable : State → Prop :=
  | reachable_init : reachable init
  | reachable_step s ev : reachable s → reachable (step s ev).

End Engine.

(** A planar stand-in for Leaflet's distance, for concrete runs: the taxicab
    distance in degrees, scaled to meters. *)
Definition taxicab (a b : LatLng) : Q :=
  ((Qabs (lat a - lat b) + Qabs (lng a - lng b)) * (111320 # 1))%Q.

(** The point with integer coordinates [(a, b)]. *)
Definition pt (a b : Z) : LatLng := mkLatLng (inject_Z a) (inject_Z b).

(** Ctrl+Z. *)
Definition ctrlZ : KeyEvent := mkKeyEvent true false "z".

(** The two vertices of the specification's scenario,
    (33.64, -84.43) and (33.641, -84.429). *)
Definition scenarioPath : list LatLng :=
  [mkLatLng (3364 # 100) (-8443 # 100); mkLatLng (33641 # 1000) (-84429 # 1000)].

(** ** Notions used by the properties *)

Section LabelLayout.

Variable distanceTo : LatLng → LatLng → Q.

(** The length in feet as [updateLineLabel] accumulates it, segment by
    segment. *)
Fixpoint sumFeet (latlngs : list LatLng) (totalFeet : Q) : Q :=
  match latlngs with
  | a :: (b :: _) as rest =>
      sumFeet rest (totalFeet + distanceTo a b * METERS_TO_FEET)%Q
  | _ => totalFeet
  end.

(** The segment labels of a polyline, in order. *)
Fixpoint segmentMarkers (latlngs : list LatLng) (color : string) : list Marker :=
  match latlngs with
  | a :: (b :: _) as rest =>
      createSegmentLabel (getSegmentMidpoint a b)
        (formatTime (distanceTo a b * METERS_TO_FEET / WALKING_SPEED_FT_PER_SEC)%Q) color
      :: segmentMarkers rest color
  | _ => []
  end.

(** All labels of a polyline: nothing below two vertices, else the segment
    labels followed by the total label. *)
Definition lineMarkers (latlngs : list LatLng) (color : string) : list Marker :=
  match latlngs with
  | first :: _ :: _ =>
      segmentMarkers latlngs color ++
      [createTotalLabel (List.last latlngs first)
         (formatTime (sumFeet latlngs 0 / WALKING_SPEED_FT_PER_SEC)%Q) color]
  | _ => []
  end.

(** The labels of a line are those its vertices and colour call for. *)
Definition synced (d : LineData) : Prop :=
  label_marker <$> labels d = lineMarkers (flattenLatLngs (polyline d)) (color d).

End LabelLayout.

(** The static part of a registry entry: its key is derived from its number,
    the number has been handed out, the colour is the palette's, and the
    polyline is flat. *)
Definition line_ok (counter : Z) (k : string) (d : LineData) : Prop :=
  k = lineId_of (number d) ∧ 1 ≤ number d ≤ counter ∧
  color d = lineColor (number d) ∧ ∃ vertices, polyline d = Flat vertices.

(** An undo entry is consistent with the registry: a delete entry describes a
    line that was created and is not registered now. *)
Definition action_ok (s : State) (action : UndoAction) : Prop :=
  match action with
  | ActCreate _ => True
  | ActDelete lineId _ color number =>
      lineId = lineId_of number ∧ 1 ≤ number ≤ lineCounter s ∧
      color = lineColor number ∧ lines s !! lineId_of number = None
  end.

(** The numbers of the lines the stack can restore. *)
Definition deleteNumbers (stack : list UndoAction) : list Z :=
  omap (λ action, match action with
                  | ActDelete _ _ _ number => Some number
                  | ActCreate _ => None
                  end) stack.

(** The invariant of the engine; [dirty] names the lines whose labels are
    being rebuilt. *)
Record Inv (distanceTo : LatLng → LatLng → Q) (dirty : string → Prop) (s : State)
  : Prop := mkInv
  { inv_counter : 0 ≤ lineCounter s;
    inv_lines : ∀ k d, lines s !! k = Some d →
                line_ok (lineCounter s) k d ∧ (dirty k ∨ synced distanceTo d);
    inv_stack : Forall (action_ok s) (undoStack s);
    inv_nodup : NoDup (deleteNumbers (undoStack s));
    inv_length : (length (undoStack s) ≤ MAX_UNDO)%nat }.

(** No line is having its labels rebuilt. *)
Definition clean (_ : string) : Prop := False.

(** How many paths the draw tool has finished in a run. *)
Definition isCreated (ev : Event) : bool :=
  match ev with DrawCreated _ => true | _ => false end.

Definition createdCount (evs : list Event) : Z :=
  Z.of_nat (length (List.filter isCreated evs)).

(** [LINE_COLORS[lineCounter % LINE_COLORS.length]]: the colour in which the
    [contextmenu] handler lets the draw tool preview the path being drawn. *)
Definition previewColor (counter : Z) : string :=
  default "undefined"%string
    (js_index LINE_COLORS (Z.rem counter (Z.of_nat (length LINE_COLORS)))).

(** ** The labels on the map and in the registry *)

(** No marker of the layer group has an id beyond Leaflet's counter. *)
Definition bounded (r : Rendered) : Prop :=
  ∀ id m, r_layer r !! id = Some m → (id ≤ r_lastId r)%N.

(** [r'] is [r] with the labels [new] added under fresh ids. *)
Definition extends (r r' : Rendered) (new : list Label) : Prop :=
  r_labels r' = r_labels r ++ new ∧
  (r_lastId r ≤ r_lastId r')%N ∧
  NoDup (label_id <$> new) ∧
  (∀ l, l ∈ new → (r_lastId r < label_id l ≤ r_lastId r')%N) ∧
  (∀ id m, r_layer r' !! id = Some m ↔
           mkLabel id m ∈ new ∨ ((id ≤ r_lastId r)%N ∧ r_layer r !! id = Some m)).

(** The labels layer mirrors the registry: its markers are the labels of
    the registered lines, each under its own id. *)
Record LayerInv (s : State) : Prop := mkLayerInv
  { layer_lookup : ∀ id m, labelsLayer s !! id = Some m ↔
                   ∃ k d, lines s !! k = Some d ∧ mkLabel id m ∈ labels d;
    layer_owner : ∀ k1 k2 d1 d2 l1 l2,
                  lines s !! k1 = Some d1 → lines s !! k2 = Some d2 →
                  l1 ∈ labels d1 → l2 ∈ labels d2 →
                  label_id l1 = label_id l2 → k1 = k2;
    layer_nodup : ∀ k d, lines s !! k = Some d → NoDup (label_id <$> labels d);
    layer_bound : ∀ id m, labelsLayer s !! id = Some m → (id ≤ lastId s)%N }.

(** ** The summary panel *)


Section Summary.

Variable distanceTo : LatLng → LatLng → Q.

(** [Number.prototype.toLocaleString] on an integer (it depends on the
    host's locale) and [toFixed(2)]. *)
Variable toLocaleString : Z → string.
Variable toFixed2 : Q → string.



End Summary.

(** ** Concrete runs *)

(** Ten paths finished one after the other. *)
Definition tenPaths : list Event := replicate 10 (DrawCreated scenarioPath).



(** ** Rounding *)

Lemma Math_round_spec (x : Q) :
  (inject_Z (Math_round x) <= x + (1 # 2))%Q ∧
  (x + (1 # 2) < inject_Z (Math_round x) + 1)%Q.
Proof.
  unfold Math_round. split; [apply Qfloor_le|].
  pose proof (Qlt_floor (x + (1 # 2))) as H.
  rewrite inject_Z_plus in H. exact H.
Qed.

Lemma Math_round_unique (x : Q) (z : Z) :
  (inject_Z z <= x + (1 # 2))%Q → (x + (1 # 2) < inject_Z z + 1)%Q →
  Math_round x = z.
Proof.
  intros Hlo Hhi. destruct (Math_round_spec x) as [Hlo' Hhi'].
  assert (Math_round x < z + 1).
  { rewrite Zlt_Qlt, inject_Z_plus. change (inject_Z 1) with 1%Q. lra. }
  assert (z < Math_round x + 1).
  { rewrite Zlt_Qlt, inject_Z_plus. change (inject_Z 1) with 1%Q. lra. }
  lia.
Qed.

Lemma Math_round_minutes_0 (seconds : Q) :
  (0 <= seconds)%Q → (seconds < 30 # 1)%Q → Math_round (seconds / (60 # 1)) = 0.
Proof.
  intros H0 H30. apply Math_round_unique; change (inject_Z 0) with 0%Q.
  - assert (0 <= seconds / (60 # 1))%Q by (apply Qle_shift_div_l; lra). lra.
  - assert (seconds / (60 # 1) < 1 # 2)%Q by (apply Qlt_shift_div_r; lra). lra.
Qed.

Lemma Math_round_minutes_1 (seconds : Q) :
  (30 # 1 <= seconds)%Q → (seconds < 90 # 1)%Q → Math_round (seconds / (60 # 1)) = 1.
Proof.
  intros H0 H30. apply Math_round_unique; change (inject_Z 1) with 1%Q.
  - assert ((1 # 2) <= seconds / (60 # 1))%Q by (apply Qle_shift_div_l; lra). lra.
  - assert (seconds / (60 # 1) < 3 # 2)%Q by (apply Qlt_shift_div_r; lra). lra.
Qed.

Lemma Math_round_comp (x y : Q) : (x == y)%Q → Math_round x = Math_round y.
Proof. intros H. unfold Math_round. apply Qfloor_comp. now rewrite H. Qed.

Lemma formatTime_comp (x y : Q) : (x == y)%Q → formatTime x = formatTime y.
Proof.
  intros H. unfold formatTime.
  now rewrite (Math_round_comp (x / (60 # 1)) (y / (60 # 1))) by now rewrite H.
Qed.

(** C7. For nonnegative seconds both formatters round to the nearest minute,
    a half minute going up: the whole number [N] of minutes with
    [N - 1/2 <= seconds/60 < N + 1/2] exists, is not negative, and is what
    both print (["<1m"] and ["<1 min"] for 0, ["1 min"] for 1, else the
    numeral). So below 30 seconds they give ["<1m"] and ["<1 min"], from 30
    up to (not including) 90 seconds ["1m"] and ["1 min"], and exactly 30
    seconds is one minute. *)
Theorem formatTime_rounding (seconds : Q) :
  (0 <= seconds)%Q →
  (∃ N : Z, 0 ≤ N ∧ (inject_Z N - (1 # 2) <= seconds / (60 # 1))%Q ∧
            (seconds / (60 # 1) < inject_Z N + (1 # 2))%Q) ∧
  (∀ N : Z, (inject_Z N - (1 # 2) <= seconds / (60 # 1))%Q →
            (seconds / (60 # 1) < inject_Z N + (1 # 2))%Q →
            formatTime seconds
            = (if (N =? 0)%Z then "<1m" else string_of_Z N ++ "m")%string ∧
            formatTimeLong seconds
            = (if (N =? 0)%Z then "<1 min"
               else if (N =? 1)%Z then "1 min" else string_of_Z N ++ " min")%string) ∧
  ((seconds < 30 # 1)%Q →
     formatTime seconds = "<1m"%string ∧ formatTimeLong seconds = "<1 min"%string) ∧
  ((30 # 1 <= seconds)%Q → (seconds < 90 # 1)%Q →
     formatTime seconds = "1m"%string ∧ formatTimeLong seconds = "1 min"%string) ∧
  formatTime (30 # 1) = "1m"%string ∧ formatTimeLong (30 # 1) = "1 min"%string.
Proof.
  intros Hpos.
  assert (0 <= seconds / (60 # 1))%Q as Hdiv by (apply Qle_shift_div_l; lra).
  destruct (Math_round_spec (seconds / (60 # 1))) as [Hlo Hhi].
  split; [|split; [|split; [|split; [|split]]]]; try reflexivity.
  - exists (Math_round (seconds / (60 # 1))). split; [|split; lra].
    assert (-1 < Math_round (seconds / (60 # 1))); [|lia].
    rewrite Zlt_Qlt. change (inject_Z (-1)) with (-1 # 1)%Q. lra.
  - intros N HloN HhiN.
    assert (Math_round (seconds / (60 # 1)) = N) as HN by (apply Math_round_unique; lra).
    unfold formatTime, formatTimeLong. now rewrite HN.
  - intros H30. unfold formatTime, formatTimeLong. now rewrite Math_round_minutes_0.
  - intros H30 H90. unfold formatTime, formatTimeLong. now rewrite Math_round_minutes_1.
Qed.

Lemma formatTime_rounding_witness :
  (formatTime (150 # 1) = "3m"%string ∧ formatTimeLong (150 # 1) = "3 min"%string) ∧
  (formatTime (45 # 1) = "1m"%string ∧ formatTimeLong (45 # 1) = "1 min"%string).
Proof.
  assert (H150 : (0 <= 150 # 1)%Q) by (vm_compute; discriminate).
  assert (H45 : (0 <= 45 # 1)%Q) by (vm_compute; discriminate).
  split.
  - destruct (formatTime_rounding (150 # 1) H150) as (_ & HN & _).
    apply (HN 3); vm_compute; [discriminate | reflexivity].
  - destruct (formatTime_rounding (45 # 1) H45) as (_ & _ & _ & H1 & _).
    apply H1; vm_compute; [discriminate | reflexivity].
Defined.

(** ** The midpoint by arc length *)

Lemma midLoop_findSegment (mid acc : Q) (segments : list Segment) :
  midLoop mid acc segments =
  (λ found : Segment * Q, interpolate mid found.2 found.1) <$> findSegment mid acc segments.
Proof.
  revert acc. induction segments as [|seg rest IH]; intros acc; simpl; [done|].
  destruct (Qle_bool mid (acc + seg_length seg)); [done | apply IH].
Qed.

(** With nonnegative lengths the loop's test succeeds at a segment of
    positive length as soon as the mark lies beyond what was accumulated and
    within the total. *)
Lemma findSegment_positive (mid acc : Q) (segments : list Segment) :
  Forall (λ seg, (0 <= seg_length seg)%Q) segments →
  (acc < mid)%Q → (mid <= acc + sumLengths segments)%Q →
  ∃ seg acc', findSegment mid acc segments = Some (seg, acc') ∧
              seg ∈ segments ∧ (0 < seg_length seg)%Q ∧
              (acc' < mid)%Q ∧ (mid <= acc' + seg_length seg)%Q.
Proof.
  revert acc. induction segments as [|seg rest IH]; intros acc Hnn Hlt Hle; simpl in *.
  - lra.
  - inversion Hnn as [|? ? Hseg Hrest]; subst.
    destruct (Qle_bool mid (acc + seg_length seg)) eqn:Htest.
    + apply Qle_bool_iff in Htest. exists seg, acc.
      repeat split; [apply list_elem_of_here | lra | lra | lra].
    + assert (¬ (mid <= acc + seg_length seg)%Q) as Hn.
      { intros Hc. apply Qle_bool_iff in Hc. congruence. }
      destruct (IH (acc + seg_length seg)%Q Hrest) as (s & a & Hf & Hin & Hp & Ha & Hb);
        [lra | lra |].
      exists s, a. repeat split; try done. now apply list_elem_of_further.
Qed.

Section GeometryFacts.

Variable distanceTo : LatLng → LatLng → Q.

Lemma collectSegments_eq (latlngs : list LatLng) (total : Q) (segments : list Segment) :
  collectSegments distanceTo latlngs total segments =
  (sumMeters distanceTo latlngs total, segments ++ segmentsOf distanceTo latlngs).
Proof.
  revert total segments. induction latlngs as [|a rest IH]; intros total segments.
  - simpl. now rewrite app_nil_r.
  - destruct rest as [|b rest'].
    + simpl. now rewrite app_nil_r.
    + change (collectSegments distanceTo (a :: b :: rest') total segments)
        with (collectSegments distanceTo (b :: rest') (total + distanceTo a b)%Q
                (segments ++ [mkSegment a b (distanceTo a b)])).
      rewrite IH. change (sumMeters distanceTo (a :: b :: rest') total)
        with (sumMeters distanceTo (b :: rest') (total + distanceTo a b)%Q).
      change (segmentsOf distanceTo (a :: b :: rest'))
        with (mkSegment a b (distanceTo a b) :: segmentsOf distanceTo (b :: rest')).
      now rewrite <- app_assoc.
Qed.

Lemma sumMeters_sumLengths (latlngs : list LatLng) (total : Q) :
  (sumMeters distanceTo latlngs total == total + sumLengths (segmentsOf distanceTo latlngs))%Q.
Proof.
  revert total. induction latlngs as [|a rest IH]; intros total.
  - simpl. lra.
  - destruct rest as [|b rest'].
    + simpl. lra.
    + change (sumMeters distanceTo (a :: b :: rest') total)
        with (sumMeters distanceTo (b :: rest') (total + distanceTo a b)%Q).
      rewrite IH.
      change (segmentsOf distanceTo (a :: b :: rest'))
        with (mkSegment a b (distanceTo a b) :: segmentsOf distanceTo (b :: rest')).
      simpl sumLengths. lra.
Qed.

Lemma segmentsOf_nonneg (latlngs : list LatLng) :
  (∀ a b, (0 <= distanceTo a b)%Q) →
  Forall (λ seg, (0 <= seg_length seg)%Q) (segmentsOf distanceTo latlngs).
Proof.
  intros Hnn. induction latlngs as [|a rest IH]; [constructor|].
  destruct rest as [|b rest']; [constructor|].
  change (segmentsOf distanceTo (a :: b :: rest'))
    with (mkSegment a b (distanceTo a b) :: segmentsOf distanceTo (b :: rest')).
  constructor; [apply Hnn | exact IH].
Qed.

(** [getMidpoint] on two or more vertices, in terms of the two loops. *)
Lemma getMidpoint_unfold (a b : LatLng) (rest : list LatLng) :
  let latlngs := a :: b :: rest in
  let mid := (sumMeters distanceTo latlngs 0 / (2 # 1))%Q in
  getMidpoint distanceTo latlngs =
  match midLoop mid 0 (segmentsOf distanceTo latlngs) with
  | Some r => r
  | None =>
      match nth_error latlngs (Nat.div (length latlngs) 2) with
      | Some p => MidAt p
      | None => MidNull
      end
  end.
Proof.
  intros latlngs mid. unfold getMidpoint. subst latlngs.
  rewrite collectSegments_eq. reflexivity.
Qed.

End GeometryFacts.

Section MidpointProperties.

Variable distanceTo : LatLng → LatLng → Q.

Lemma getMidpoint_nil : getMidpoint distanceTo [] = MidNull.
Proof. reflexivity. Qed.

Lemma getMidpoint_single (p : LatLng) : getMidpoint distanceTo [p] = MidAt p.
Proof. reflexivity. Qed.

Lemma interpolate_positive (mid acc : Q) (seg : Segment) :
  (0 < seg_length seg)%Q →
  interpolate mid acc seg = MidAt (lerp seg ((mid - acc) / seg_length seg)).
Proof.
  intros Hpos. unfold interpolate, js_div.
  destruct (Qeq_bool (seg_length seg) 0) eqn:Hz; [|done].
  apply Qeq_bool_iff in Hz. lra.
Qed.

Lemma interpolate_zero (mid acc : Q) (seg : Segment) :
  (seg_length seg == 0)%Q → interpolate mid acc seg = MidNotFinite.
Proof.
  intros Hz. unfold interpolate, js_div.
  apply Qeq_bool_iff in Hz. now rewrite Hz.
Qed.

(** With nonnegative distances and a positive total length the loop of
    [getMidpoint] returns from inside, at a segment of positive length. *)
Lemma getMidpoint_interpolates (latlngs : list LatLng) :
  (∀ a b, (0 <= distanceTo a b)%Q) →
  (2 ≤ length latlngs)%nat →
  (0 < sumMeters distanceTo latlngs 0)%Q →
  let mid := (sumMeters distanceTo latlngs 0 / (2 # 1))%Q in
  ∃ seg acc,
    findSegment mid 0 (segmentsOf distanceTo latlngs) = Some (seg, acc) ∧
    seg ∈ segmentsOf distanceTo latlngs ∧
    (0 < seg_length seg)%Q ∧ (acc < mid)%Q ∧ (mid <= acc + seg_length seg)%Q ∧
    midLoop mid 0 (segmentsOf distanceTo latlngs)
      = Some (MidAt (lerp seg ((mid - acc) / seg_length seg))) ∧
    getMidpoint distanceTo latlngs = MidAt (lerp seg ((mid - acc) / seg_length seg)).
Proof.
  intros Hnn Hlen Htot mid.
  destruct latlngs as [|a [|b rest]]; simpl in Hlen; try lia.
  pose proof (sumMeters_sumLengths distanceTo (a :: b :: rest) 0) as Hsum.
  destruct (findSegment_positive mid 0 (segmentsOf distanceTo (a :: b :: rest)))
    as (seg & acc & Hf & Hin & Hpos & Hacc & Hmid).
  { now apply segmentsOf_nonneg. }
  { subst mid. apply Qlt_shift_div_l; lra. }
  { subst mid. rewrite <- Hsum. apply Qle_shift_div_r; lra. }
  exists seg, acc.
  assert (midLoop mid 0 (segmentsOf distanceTo (a :: b :: rest))
          = Some (MidAt (lerp seg ((mid - acc) / seg_length seg)))) as Hloop.
  { rewrite midLoop_findSegment, Hf. simpl. now rewrite interpolate_positive. }
  repeat split; try done.
  rewrite getMidpoint_unfold. fold mid. now rewrite Hloop.
Qed.

Lemma sumLengths_coincident (p : LatLng) (latlngs : list LatLng) :
  (distanceTo p p == 0)%Q → Forall (eq p) latlngs →
  (sumLengths (segmentsOf distanceTo latlngs) == 0)%Q.
Proof.
  intros Hz Hall. induction latlngs as [|a rest IH]; [reflexivity|].
  inversion Hall as [|? ? Ha Hrest]; subst.
  destruct rest as [|b rest']; [reflexivity|].
  inversion Hrest as [|? ? Hb Hrest']; subst.
  change (segmentsOf distanceTo (b :: b :: rest'))
    with (mkSegment b b (distanceTo b b) :: segmentsOf distanceTo (b :: rest')).
  simpl sumLengths. rewrite (IH Hrest). lra.
Qed.

(** When all vertices coincide the loop stops at the first segment, whose
    length, the divisor, is zero. *)
Lemma getMidpoint_coincident (p : LatLng) (latlngs : list LatLng) :
  (distanceTo p p == 0)%Q →
  (2 ≤ length latlngs)%nat → Forall (eq p) latlngs →
  let mid := (sumMeters distanceTo latlngs 0 / (2 # 1))%Q in
  ∃ seg,
    findSegment mid 0 (segmentsOf distanceTo latlngs) = Some (seg, 0%Q) ∧
    (seg_length seg == 0)%Q ∧
    js_div (mid - 0) (seg_length seg) = None ∧
    getMidpoint distanceTo latlngs = MidNotFinite.
Proof.
  intros Hz Hlen Hall mid.
  destruct latlngs as [|a [|b rest]]; simpl in Hlen; try lia.
  pose proof (sumMeters_sumLengths distanceTo (a :: b :: rest) 0) as Hsum.
  rewrite (sumLengths_coincident p) in Hsum by done.
  inversion Hall as [|? ? Ha Hrest]; subst a.
  inversion Hrest as [|? ? Hb Hrest']; subst b.
  exists (mkSegment p p (distanceTo p p)).
  assert (Qle_bool mid (0 + distanceTo p p) = true) as Htest.
  { apply Qle_bool_iff. subst mid. rewrite Hsum, Hz. vm_compute. discriminate. }
  assert (findSegment mid 0 (segmentsOf distanceTo (p :: p :: rest))
          = Some (mkSegment p p (distanceTo p p), 0%Q)) as Hf.
  { change (segmentsOf distanceTo (p :: p :: rest))
      with (mkSegment p p (distanceTo p p) :: segmentsOf distanceTo (p :: rest)).
    simpl. now rewrite Htest. }
  repeat split; try done.
  - unfold js_div. simpl. apply Qeq_bool_iff in Hz. now rewrite Hz.
  - rewrite getMidpoint_unfold. fold mid. rewrite midLoop_findSegment, Hf. simpl.
    now apply interpolate_zero.
Qed.

(** C10. For two or more vertices with nonnegative segment lengths and a
    positive total, [getMidpoint] reaches the interpolation branch at a
    segment of positive length (the divisor) and returns the interpolated
    point from inside the loop, so the fallback is not reached; when
    instead all vertices coincide, the branch is taken at a segment of
    length zero and the division has no finite result. *)
Theorem getMidpoint_divisor (latlngs : list LatLng) :
  (∀ a b, (0 <= distanceTo a b)%Q) →
  (2 ≤ length latlngs)%nat →
  let collected := collectSegments distanceTo latlngs 0 [] in
  let mid := (collected.1 / (2 # 1))%Q in
  ((0 < collected.1)%Q →
     ∃ seg acc,
       findSegment mid 0 collected.2 = Some (seg, acc) ∧
       (0 < seg_length seg)%Q ∧
       midLoop mid 0 collected.2
         = Some (MidAt (lerp seg ((mid - acc) / seg_length seg))) ∧
       getMidpoint distanceTo latlngs
         = MidAt (lerp seg ((mid - acc) / seg_length seg))) ∧
  (∀ p, (distanceTo p p == 0)%Q → Forall (eq p) latlngs →
     ∃ seg,
       findSegment mid 0 collected.2 = Some (seg, 0%Q) ∧
       (seg_length seg == 0)%Q ∧
       js_div (mid - 0) (seg_length seg) = None ∧
       getMidpoint distanceTo latlngs = MidNotFinite).
Proof.
  intros Hnn Hlen collected mid. subst mid collected.
  rewrite collectSegments_eq. simpl fst. simpl snd. split.
  - intros Htot.
    destruct (getMidpoint_interpolates latlngs Hnn Hlen Htot)
      as (seg & acc & Hf & _ & Hpos & _ & _ & Hloop & Hget).
    exists seg, acc. done.
  - intros p Hz Hall. now apply (getMidpoint_coincident p).
Qed.

End MidpointProperties.

Lemma taxicab_nonneg (a b : LatLng) : (0 <= taxicab a b)%Q.
Proof.
  unfold taxicab. apply Qmult_le_0_compat; [|vm_compute; discriminate].
  pose proof (Qabs_nonneg (lat a - lat b)). pose proof (Qabs_nonneg (lng a - lng b)). lra.
Qed.

Lemma getMidpoint_divisor_witness :
  ∃ seg acc,
    findSegment ((collectSegments taxicab [pt 0 0; pt 0 2] 0 []).1 / (2 # 1)) 0
      (collectSegments taxicab [pt 0 0; pt 0 2] 0 []).2 = Some (seg, acc) ∧
    (0 < seg_length seg)%Q.
Proof.
  assert (Hlen : (2 ≤ length [pt 0 0; pt 0 2])%nat) by (simpl; lia).
  destruct (getMidpoint_divisor taxicab [pt 0 0; pt 0 2] taxicab_nonneg Hlen) as [H _].
  destruct H as (seg & acc & Hf & Hpos & _); [vm_compute; reflexivity|].
  exists seg, acc. split; assumption.
Defined.

(** ** Line ids *)

Lemma Z_to_int_inj (n m : Z) : Z.to_int n = Z.to_int m → n = m.
Proof. intros H. now rewrite <- (of_to n), <- (of_to m), H. Qed.

Lemma Z_to_int_proper (n : Z) :
  Z.to_int n ≠ Decimal.Pos Decimal.Nil ∧ Z.to_int n ≠ Decimal.Neg Decimal.Nil.
Proof.
  destruct n as [|p|p]; simpl; split; try discriminate;
    intros H; injection H as H; exact (Unsigned.to_uint_nonnil p H).
Qed.

Lemma string_of_Z_inj (n m : Z) : string_of_Z n = string_of_Z m → n = m.
Proof.
  unfold string_of_Z. intros H. apply Z_to_int_inj.
  destruct (Z_to_int_proper n) as [Hn1 Hn2], (Z_to_int_proper m) as [Hm1 Hm2].
  pose proof (NilZero.isi _ Hn1 Hn2) as En. pose proof (NilZero.isi _ Hm1 Hm2) as Em.
  rewrite H in En. congruence.
Qed.

Lemma lineId_of_inj (n m : Z) : lineId_of n = lineId_of m → n = m.
Proof.
  unfold lineId_of. simpl. intros H. injection H as H. now apply string_of_Z_inj.
Qed.

(** In range the truncating remainder is the modulus and the palette lookup
    succeeds. *)
Lemma lineColor_palette (i : Z) :
  1 ≤ i →
  LINE_COLORS !! Z.to_nat ((i - 1) mod 8) = Some (lineColor i).
Proof.
  intros Hi. unfold lineColor, js_index.
  change (Z.of_nat (length LINE_COLORS)) with 8.
  rewrite Z.rem_mod_nonneg by lia.
  pose proof (Z.mod_pos_bound (i - 1) 8 ltac:(lia)) as Hb.
  destruct (Z.ltb_spec ((i - 1) mod 8) 0) as [|_]; [lia|].
  assert (Z.to_nat ((i - 1) mod 8) < 8)%nat as Hlt by lia.
  destruct (Z.to_nat ((i - 1) mod 8)) as [|[|[|[|[|[|[|[|n]]]]]]]]; try reflexivity; lia.
Qed.

(** ** The undo stack *)

Lemma pushUndo_drop (action : UndoAction) (stack : list UndoAction) :
  pushUndo action stack =
  drop (if (MAX_UNDO <? length (stack ++ [action]))%nat then 1 else 0) (stack ++ [action]).
Proof.
  unfold pushUndo. destruct (MAX_UNDO <? length (stack ++ [action]))%nat; [|done].
  now destruct (stack ++ [action]).
Qed.

Lemma pushUndo_room (action : UndoAction) (stack : list UndoAction) :
  (length stack < MAX_UNDO)%nat → pushUndo action stack = stack ++ [action].
Proof.
  intros H. unfold pushUndo. rewrite length_app. simpl.
  destruct (Nat.ltb_spec MAX_UNDO (length stack + 1)); [lia | done].
Qed.

Lemma pushUndo_full (action : UndoAction) (stack : list UndoAction) :
  (MAX_UNDO ≤ length stack)%nat → pushUndo action stack = tail stack ++ [action].
Proof.
  intros H. unfold pushUndo. rewrite length_app. simpl.
  destruct (Nat.ltb_spec MAX_UNDO (length stack + 1)); [|lia].
  destruct stack; [simpl in H; unfold MAX_UNDO in H; lia | done].
Qed.

Lemma pushUndo_length (action : UndoAction) (stack : list UndoAction) :
  (length stack ≤ MAX_UNDO)%nat → (length (pushUndo action stack) ≤ MAX_UNDO)%nat.
Proof.
  intros H. destruct (decide (length stack < MAX_UNDO)%nat).
  - rewrite pushUndo_room by done. rewrite length_app. simpl. lia.
  - rewrite pushUndo_full by lia. rewrite length_app. simpl.
    destruct stack; simpl in *; unfold MAX_UNDO in *; lia.
Qed.

Lemma pushUndo_sublist (action : UndoAction) (stack : list UndoAction) :
  pushUndo action stack `sublist_of` stack ++ [action].
Proof. rewrite pushUndo_drop. apply sublist_drop. Qed.

Lemma pushUndo_Forall (P : UndoAction → Prop) (action : UndoAction) (stack : list UndoAction) :
  Forall P stack → P action → Forall P (pushUndo action stack).
Proof.
  intros Hs Ha. rewrite pushUndo_drop. apply Forall_drop.
  apply Forall_app. split; [done | by constructor].
Qed.

Lemma pushUndo_last (action : UndoAction) (stack : list UndoAction) :
  ∃ rest, pushUndo action stack = rest ++ [action] ∧
          rest = if decide (length stack < MAX_UNDO)%nat then stack else tail stack.
Proof.
  destruct (decide (length stack < MAX_UNDO)%nat).
  - exists stack. now rewrite pushUndo_room.
  - exists (tail stack). now rewrite pushUndo_full by lia.
Qed.

Lemma pop_snoc {A} (stack : list A) (a : A) : pop (stack ++ [a]) = Some (a, stack).
Proof. unfold pop. now rewrite last_snoc, removelast_last. Qed.

Lemma pop_nil {A} : pop (@nil A) = None.
Proof. reflexivity. Qed.

Lemma pop_Some {A} (stack rest : list A) (a : A) :
  pop stack = Some (a, rest) → stack = rest ++ [a].
Proof.
  destruct stack as [|x stack'] using rev_ind; [discriminate|].
  rewrite pop_snoc. congruence.
Qed.

Lemma deleteNumbers_sublist (l1 l2 : list UndoAction) :
  l1 `sublist_of` l2 → deleteNumbers l1 `sublist_of` deleteNumbers l2.
Proof.
  unfold deleteNumbers. induction 1 as [|x l1 l2 _ IH|x l1 l2 _ IH]; simpl.
  - constructor.
  - destruct x; [exact IH | now constructor].
  - destruct x; [exact IH | now constructor].
Qed.

(** ** Label layout *)

Section LabelLayoutFacts.

Variable distanceTo : LatLng → LatLng → Q.

Lemma segmentLoop_spec (latlngs : list LatLng) (color : string) (total : Q) (r : Rendered) :
  (segmentLoop distanceTo latlngs color total r).1 = sumFeet distanceTo latlngs total ∧
  label_marker <$> r_labels (segmentLoop distanceTo latlngs color total r).2
    = (label_marker <$> r_labels r) ++ segmentMarkers distanceTo latlngs color.
Proof.
  revert total r. induction latlngs as [|a rest IH]; intros total r.
  - simpl. now rewrite app_nil_r.
  - destruct rest as [|b rest'].
    + simpl. now rewrite app_nil_r.
    + change (segmentLoop distanceTo (a :: b :: rest') color total r)
        with (segmentLoop distanceTo (b :: rest') color
                (total + distanceTo a b * METERS_TO_FEET)%Q
                (addLabel (createSegmentLabel (getSegmentMidpoint a b)
                   (formatTime (distanceTo a b * METERS_TO_FEET / WALKING_SPEED_FT_PER_SEC)%Q)
                   color) r)).
      destruct (IH (total + distanceTo a b * METERS_TO_FEET)%Q
                  (addLabel (createSegmentLabel (getSegmentMidpoint a b)
                     (formatTime (distanceTo a b * METERS_TO_FEET / WALKING_SPEED_FT_PER_SEC)%Q)
                     color) r)) as [IH1 IH2].
      split; [exact IH1|]. rewrite IH2. unfold addLabel. simpl r_labels.
      rewrite fmap_app, <- app_assoc. reflexivity.
Qed.

Lemma sumFeet_sumMeters (latlngs : list LatLng) (feet meters : Q) :
  (feet == meters * METERS_TO_FEET)%Q →
  (sumFeet distanceTo latlngs feet == sumMeters distanceTo latlngs meters * METERS_TO_FEET)%Q.
Proof.
  revert feet meters. induction latlngs as [|a rest IH]; intros feet meters H; [done|].
  destruct rest as [|b rest']; [done|].
  change (sumFeet distanceTo (a :: b :: rest') feet)
    with (sumFeet distanceTo (b :: rest') (feet + distanceTo a b * METERS_TO_FEET)%Q).
  change (sumMeters distanceTo (a :: b :: rest') meters)
    with (sumMeters distanceTo (b :: rest') (meters + distanceTo a b)%Q).
  apply IH. rewrite H. ring.
Qed.

(** The walking time of the whole polyline, whichever way the feet are
    summed. *)
Lemma sumFeet_calculateDistance (latlngs : list LatLng) :
  (sumFeet distanceTo latlngs 0 == calculateDistance distanceTo latlngs)%Q.
Proof. unfold calculateDistance. apply sumFeet_sumMeters. ring. Qed.

Lemma length_segmentMarkers (latlngs : list LatLng) (color : string) :
  length (segmentMarkers distanceTo latlngs color) = Nat.pred (length latlngs).
Proof.
  induction latlngs as [|a rest IH]; [done|].
  destruct rest as [|b rest']; [done|].
  change (segmentMarkers distanceTo (a :: b :: rest') color)
    with (createSegmentLabel (getSegmentMidpoint a b)
            (formatTime (distanceTo a b * METERS_TO_FEET / WALKING_SPEED_FT_PER_SEC)%Q) color
          :: segmentMarkers distanceTo (b :: rest') color).
  simpl length in *. now rewrite IH.
Qed.

Lemma updateLineLabel_None (lineId : string) (s : State) :
  lines s !! lineId = None → updateLineLabel distanceTo lineId s = s.
Proof. intros H. unfold updateLineLabel. now rewrite H. Qed.

Lemma updateLineLabel_Some (lineId : string) (s : State) (d : LineData) :
  lines s !! lineId = Some d →
  ∃ ls, lines (updateLineLabel distanceTo lineId s)
        = <[lineId := mkLineData (polyline d) ls (color d) (number d)]> (lines s) ∧
        label_marker <$> ls = lineMarkers distanceTo (flattenLatLngs (polyline d)) (color d).
Proof.
  intros H. unfold updateLineLabel. rewrite H.
  destruct (flattenLatLngs (polyline d)) as [|a [|b rest]] eqn:Hflat.
  - eexists. split; reflexivity.
  - eexists. split; reflexivity.
  - pose proof (segmentLoop_spec (a :: b :: rest) (color d) 0
                  (mkRendered (removeLabels (labels d) (labelsLayer s)) (lastId s) []))
      as [H1 H2].
    destruct (segmentLoop distanceTo (a :: b :: rest) (color d) 0
                (mkRendered (removeLabels (labels d) (labelsLayer s)) (lastId s) []))
      as [totalFeet r].
    simpl in H1, H2. subst totalFeet.
    eexists. split; [reflexivity|].
    unfold addLabel. simpl r_labels. rewrite fmap_app, H2. reflexivity.
Qed.

Lemma updateLineLabel_lineCounter (lineId : string) (s : State) :
  lineCounter (updateLineLabel distanceTo lineId s) = lineCounter s.
Proof. unfold updateLineLabel. now destruct (lines s !! lineId). Qed.

Lemma updateLineLabel_undoStack (lineId : string) (s : State) :
  undoStack (updateLineLabel distanceTo lineId s) = undoStack s.
Proof. unfold updateLineLabel. now destruct (lines s !! lineId). Qed.

(** Which entries the registry has after [updateLineLabel]. *)
Lemma updateLineLabel_lookup (lineId k : string) (s : State) :
  lines (updateLineLabel distanceTo lineId s) !! k =
  if decide (k = lineId)
  then (λ d, mkLineData (polyline d)
               (default [] (labels <$> lines (updateLineLabel distanceTo lineId s) !! k))
               (color d) (number d)) <$> lines s !! k
  else lines s !! k.
Proof.
  destruct (lines s !! lineId) as [d|] eqn:Hd.
  - destruct (updateLineLabel_Some lineId s d Hd) as (ls & Hl & _). rewrite Hl.
    case_decide as Hk.
    + subst k. rewrite lookup_insert_eq, Hd. reflexivity.
    + now rewrite lookup_insert_ne.
  - rewrite updateLineLabel_None by done. case_decide as Hk; [|done].
    subst k. now rewrite Hd.
Qed.

Lemma updateLineLabel_is_None (lineId k : string) (s : State) :
  lines (updateLineLabel distanceTo lineId s) !! k = None ↔ lines s !! k = None.
Proof.
  rewrite updateLineLabel_lookup. case_decide; [|done].
  now rewrite fmap_None.
Qed.

End LabelLayoutFacts.

(** ** The invariant *)

Lemma elem_of_deleteNumbers (n : Z) (stack : list UndoAction) :
  n ∈ deleteNumbers stack →
  ∃ lineId latlngs color, ActDelete lineId latlngs color n ∈ stack.
Proof.
  unfold deleteNumbers. rewrite list_elem_of_omap.
  intros (action & Hin & Hn). destruct action as [|lineId latlngs color m]; [done|].
  injection Hn as ->. eauto.
Qed.

Lemma line_ok_mono (c c' : Z) (k : string) (d : LineData) :
  c ≤ c' → line_ok c k d → line_ok c' k d.
Proof. intros Hc (Hk & Hn & Hcol & Hflat). repeat split; try done; lia. Qed.

Lemma action_ok_transfer (s s' : State) (action : UndoAction) :
  lineCounter s ≤ lineCounter s' →
  (∀ n, 1 ≤ n ≤ lineCounter s → n ∈ deleteNumbers [action] →
        lines s !! lineId_of n = None → lines s' !! lineId_of n = None) →
  action_ok s action → action_ok s' action.
Proof.
  intros Hc Hl. destruct action as [|lineId latlngs color n]; [done|].
  intros (Hid & Hn & Hcol & Hnone). repeat split; try done; try lia.
  apply Hl; try done. simpl. apply list_elem_of_here.
Qed.

Section Invariant.

Variable distanceTo : LatLng → LatLng → Q.


Lemma Inv_weaken (dirty dirty' : string → Prop) (s : State) :
  (∀ k, dirty k → dirty' k) → Inv distanceTo dirty s → Inv distanceTo dirty' s.
Proof.
  intros Hd [H1 H2 H3 H4 H5]. split; try done.
  intros k d Hk. destruct (H2 k d Hk) as [Hok [Hdirty|Hs]]; auto.
Qed.

(** Dropping registry entries, with the counter and the stack as they
    were, keeps the invariant. *)
Lemma Inv_shrink (dirty : string → Prop) (s s' : State) :
  lineCounter s' = lineCounter s → undoStack s' = undoStack s →
  (∀ k d, lines s' !! k = Some d → lines s !! k = Some d) →
  Inv distanceTo dirty s → Inv distanceTo dirty s'.
Proof.
  intros Hc Hu Hl [H1 H2 H3 H4 H5]. split.
  - now rewrite Hc.
  - intros k d Hk. rewrite Hc. apply H2, Hl, Hk.
  - rewrite Hu. eapply Forall_impl; [exact H3|]. intros action.
    apply action_ok_transfer; [lia|]. intros n _ _ Hnone.
    destruct (lines s' !! lineId_of n) as [d|] eqn:Hd; [|done].
    apply Hl in Hd. congruence.
  - now rewrite Hu.
  - now rewrite Hu.
Qed.

Lemma Inv_init : Inv distanceTo clean init.
Proof.
  split; simpl; try done; try lia; constructor.
Qed.

Lemma updateLineLabel_Inv (dirty : string → Prop) (lineId : string) (s : State) :
  Inv distanceTo dirty s → Inv distanceTo (λ k, dirty k ∧ k ≠ lineId) (updateLineLabel distanceTo lineId s).
Proof.
  intros [H1 H2 H3 H4 H5]. split.
  - now rewrite updateLineLabel_lineCounter.
  - intros k d' Hk. rewrite updateLineLabel_lineCounter.
    destruct (decide (k = lineId)) as [->|Hne].
    + destruct (lines s !! lineId) as [d|] eqn:Hd.
      * destruct (updateLineLabel_Some distanceTo lineId s d Hd) as (ls & Hl & Hsync).
        rewrite Hl, lookup_insert_eq in Hk. injection Hk as <-.
        destruct (H2 lineId d Hd) as [Hok _]. split; [exact Hok|].
        right. exact Hsync.
      * rewrite updateLineLabel_None in Hk by done. congruence.
    + rewrite updateLineLabel_lookup in Hk. rewrite decide_False in Hk by done.
      destruct (H2 k d' Hk) as [Hok [Hd|Hs]]; auto.
  - rewrite updateLineLabel_undoStack.
    eapply Forall_impl; [exact H3|]. intros action.
    apply action_ok_transfer; [rewrite updateLineLabel_lineCounter; lia|].
    intros n _ _. now rewrite updateLineLabel_is_None.
  - now rewrite updateLineLabel_undoStack.
  - now rewrite updateLineLabel_undoStack.
Qed.

Lemma removeLineFromMap_lines (lineId : string) (s : State) :
  lines (removeLineFromMap lineId s) = delete lineId (lines s).
Proof.
  unfold removeLineFromMap. destruct (lines s !! lineId) eqn:H; [done|].
  symmetry. now apply delete_id.
Qed.

Lemma removeLineFromMap_undoStack (lineId : string) (s : State) :
  undoStack (removeLineFromMap lineId s) = undoStack s.
Proof. unfold removeLineFromMap. now destruct (lines s !! lineId). Qed.

Lemma removeLineFromMap_lineCounter (lineId : string) (s : State) :
  lineCounter (removeLineFromMap lineId s) = lineCounter s.
Proof. unfold removeLineFromMap. now destruct (lines s !! lineId). Qed.

Lemma removeLineFromMap_Inv (dirty : string → Prop) (lineId : string) (s : State) :
  Inv distanceTo dirty s → Inv distanceTo dirty (removeLineFromMap lineId s).
Proof.
  apply Inv_shrink.
  - apply removeLineFromMap_lineCounter.
  - apply removeLineFromMap_undoStack.
  - intros k d. rewrite removeLineFromMap_lines, lookup_delete_Some. tauto.
Qed.

Lemma onDeleted_Inv (lineIds : list string) (s : State) :
  Inv distanceTo clean s → Inv distanceTo clean (onDeleted lineIds s).
Proof.
  unfold onDeleted. revert s. induction lineIds as [|lineId rest IH]; intros s H; [done|].
  simpl. apply IH. revert H. apply Inv_shrink; try done.
  intros k d. simpl. rewrite lookup_delete_Some. tauto.
Qed.

Lemma clearAll_Inv (s : State) : Inv distanceTo clean s → Inv distanceTo clean (clearAll s).
Proof. apply Inv_shrink; try done; intros k d; simpl; now rewrite lookup_empty. Qed.

Lemma onCreated_Inv (vertices : list LatLng) (s : State) :
  Inv distanceTo clean s → Inv distanceTo clean (onCreated distanceTo vertices s).
Proof.
  intros [H1 H2 H3 H4 H5]. unfold onCreated.
  eapply Inv_weaken; [|apply updateLineLabel_Inv with (dirty := λ k, k = lineId_of (lineCounter s + 1))].
  { intros k [-> Hne]. done. }
  split; simpl.
  - lia.
  - intros k d Hk. destruct (decide (k = lineId_of (lineCounter s + 1))) as [->|Hne].
    + rewrite lookup_insert_eq in Hk. injection Hk as <-.
      split; [|by left]. repeat split; simpl; try lia. by eexists.
    + rewrite lookup_insert_ne in Hk by done.
      destruct (H2 k d Hk) as [Hok [[]|Hs]].
      split; [|by right]. eapply line_ok_mono; [|exact Hok]. lia.
  - apply pushUndo_Forall; [|done].
    eapply Forall_impl; [exact H3|]. intros action.
    apply action_ok_transfer; simpl; [lia|]. intros n Hn _ Hnone.
    rewrite lookup_insert_ne; [done|]. intros Heq. apply lineId_of_inj in Heq. lia.
  - eapply sublist_NoDup; [|apply deleteNumbers_sublist, pushUndo_sublist].
    unfold deleteNumbers. rewrite omap_app. simpl. now rewrite app_nil_r.
  - now apply pushUndo_length.
Qed.

Lemma deleteLine_Inv (lineId : string) (s : State) :
  Inv distanceTo clean s → Inv distanceTo clean (deleteLine lineId s).
Proof.
  intros HI. unfold deleteLine. destruct (lines s !! lineId) as [d|] eqn:Hd; [|done].
  destruct HI as [H1 H2 H3 H4 H5].
  destruct (H2 lineId d Hd) as [(Hid & Hn & Hcol & Hflat) _].
  split.
  - now rewrite removeLineFromMap_lineCounter.
  - intros k d' Hk. rewrite removeLineFromMap_lineCounter. simpl.
    rewrite removeLineFromMap_lines in Hk. simpl in Hk.
    apply lookup_delete_Some in Hk as [_ Hk]. now apply H2.
  - rewrite removeLineFromMap_undoStack. simpl. apply pushUndo_Forall.
    + eapply Forall_impl; [exact H3|]. intros action.
      apply action_ok_transfer; [rewrite removeLineFromMap_lineCounter; simpl; lia|].
      intros n _ _ Hnone. rewrite removeLineFromMap_lines. simpl.
      rewrite lookup_delete_None. now right.
    + simpl. rewrite removeLineFromMap_lineCounter, removeLineFromMap_lines. simpl.
      repeat split; try done; try lia. rewrite <- Hid. apply lookup_delete_eq.
  - rewrite removeLineFromMap_undoStack. simpl.
    eapply sublist_NoDup; [|apply deleteNumbers_sublist, pushUndo_sublist].
    unfold deleteNumbers. rewrite omap_app. simpl.
    apply NoDup_app. split; [exact H4|]. split; [|apply NoDup_singleton].
    intros n Hin Hn'. apply list_elem_of_singleton in Hn'. subst n.
    apply elem_of_deleteNumbers in Hin as (id' & vs & c & Hin).
    rewrite Forall_forall in H3. specialize (H3 _ Hin). simpl in H3.
    destruct H3 as (_ & _ & _ & Hnone). congruence.
  - rewrite removeLineFromMap_undoStack. simpl. now apply pushUndo_length.
Qed.

Lemma restoreLine_Inv (latlngs : list LatLng) (n : Z) (s : State) :
  Inv distanceTo clean s → 1 ≤ n ≤ lineCounter s → n ∉ deleteNumbers (undoStack s) →
  Inv distanceTo clean (restoreLine distanceTo latlngs (lineColor n) n s).
Proof.
  intros [H1 H2 H3 H4 H5] Hn Hfresh. unfold restoreLine.
  eapply Inv_weaken; [|apply updateLineLabel_Inv with (dirty := λ k, k = lineId_of n)].
  { intros k [-> Hne]. done. }
  split; simpl; try done.
  - intros k d Hk. destruct (decide (k = lineId_of n)) as [->|Hne].
    + rewrite lookup_insert_eq in Hk. injection Hk as <-.
      split; [|by left]. repeat split; simpl; try lia. by eexists.
    + rewrite lookup_insert_ne in Hk by done.
      destruct (H2 k d Hk) as [Hok [[]|Hs]]. by split; [|right].
  - apply Forall_forall. intros action Hin.
    rewrite Forall_forall in H3. specialize (H3 _ Hin). revert H3.
    apply action_ok_transfer; simpl; [lia|]. intros m _ Hm Hnone.
    rewrite lookup_insert_ne; [done|]. intros Heq. apply lineId_of_inj in Heq. subst m.
    apply Hfresh. apply list_elem_of_omap. exists action. split; [done|].
    destruct action; simpl in Hm; [by apply not_elem_of_nil in Hm|].
    apply list_elem_of_singleton in Hm. now subst.
Qed.

Lemma undo_Inv (s : State) : Inv distanceTo clean s → Inv distanceTo clean (undo distanceTo s).
Proof.
  intros HI. unfold undo. destruct (pop (undoStack s)) as [[action rest]|] eqn:Hpop; [|done].
  apply pop_Some in Hpop. destruct HI as [H1 H2 H3 H4 H5].
  rewrite Hpop in H3, H4, H5.
  apply Forall_app in H3 as [H3 Ha]. rewrite Forall_singleton in Ha.
  unfold deleteNumbers in H4. rewrite omap_app in H4.
  apply NoDup_app in H4 as (H4 & Hdisj & _).
  rewrite length_app in H5.
  assert (Inv distanceTo clean (set_undoStack (λ _, rest) s)) as HI0.
  { split; simpl; try done. lia. }
  destruct action as [lineId|lineId latlngs color n].
  - now apply removeLineFromMap_Inv.
  - destruct Ha as (_ & Hn & -> & _).
    apply restoreLine_Inv; [done | done |].
    simpl. intros Hin. apply (Hdisj n Hin). simpl. apply list_elem_of_here.
Qed.

Lemma onKeyDown_Inv (e : KeyEvent) (s : State) :
  Inv distanceTo clean s → Inv distanceTo clean (onKeyDown distanceTo e s).
Proof.
  intros HI. unfold onKeyDown.
  destruct ((ctrlKey e || metaKey e) && String.eqb (key e) "z"); [|done].
  now apply undo_Inv.
Qed.

Lemma setLatLngs_Inv (dirty : string → Prop) (edit : string * list LatLng) (s : State) :
  Inv distanceTo dirty s → Inv distanceTo (λ k, dirty k ∨ k = edit.1) (setLatLngs s edit).
Proof.
  intros [H1 H2 H3 H4 H5]. split; simpl; try done.
  - intros k d Hk. rewrite lookup_alter in Hk. case_decide as Hdec.
    + subst k. destruct (lines s !! edit.1) as [d0|] eqn:Hd0; [|done].
      simpl in Hk. injection Hk as <-.
      destruct (H2 _ _ Hd0) as [(Hid & Hn & Hcol & Hflat) _].
      split; [|left; by right]. repeat split; simpl; try done; try lia. by eexists.
    + destruct (H2 k d Hk) as [Hok [Hd|Hs]]; auto.
  - eapply Forall_impl; [exact H3|]. intros action.
    apply action_ok_transfer; simpl; [lia|]. intros n _ _ Hnone.
    rewrite lookup_alter. case_decide as Hdec; [|done]. now rewrite ?Hdec, Hnone.
Qed.

Lemma foldl_setLatLngs_Inv (dirty : string → Prop) (edits : list (string * list LatLng))
    (s : State) :
  Inv distanceTo dirty s → Inv distanceTo (λ k, dirty k ∨ k ∈ edits.*1) (foldl setLatLngs s edits).
Proof.
  revert dirty s. induction edits as [|edit rest IH]; intros dirty s HI; simpl.
  - eapply Inv_weaken; [|exact HI]. auto.
  - eapply Inv_weaken; [|apply IH, setLatLngs_Inv, HI].
    intros k [[Hd|Heq]|Hin]; auto.
    + right. subst k. apply list_elem_of_here.
    + right. now apply list_elem_of_further.
Qed.

Lemma foldl_updateLineLabel_Inv (lineIds : list string) (s : State) :
  Inv distanceTo (λ k, k ∈ lineIds) s →
  Inv distanceTo clean (foldl (λ s lineId, updateLineLabel distanceTo lineId s) s lineIds).
Proof.
  revert s. induction lineIds as [|lineId rest IH]; intros s HI; simpl.
  - eapply Inv_weaken; [|exact HI]. intros k Hk. by apply not_elem_of_nil in Hk.
  - apply IH. eapply Inv_weaken; [|apply updateLineLabel_Inv, HI].
    intros k [Hin Hne]. apply elem_of_cons in Hin as [Heq|Hin]; done.
Qed.

Lemma onEdited_Inv (edits : list (string * list LatLng)) (s : State) :
  Inv distanceTo clean s → Inv distanceTo clean (onEdited distanceTo edits s).
Proof.
  intros HI. unfold onEdited. apply foldl_updateLineLabel_Inv.
  eapply Inv_weaken; [|apply foldl_setLatLngs_Inv, HI]. intros k [[]|Hin]. exact Hin.
Qed.

Lemma step_Inv (s : State) (ev : Event) : Inv distanceTo clean s → Inv distanceTo clean (step distanceTo s ev).
Proof.
  intros HI. destruct ev; simpl.
  - now apply onCreated_Inv.
  - now apply onEdited_Inv.
  - now apply onDeleted_Inv.
  - now apply deleteLine_Inv.
  - now apply clearAll_Inv.
  - now apply onKeyDown_Inv.
Qed.

(** Every reachable state satisfies the invariant. *)
Lemma reachable_Inv (s : State) : reachable distanceTo s → Inv distanceTo clean s.
Proof. induction 1 as [|s ev _ IH]; [apply Inv_init | now apply step_Inv]. Qed.

Lemma run_snoc (evs : list Event) (ev : Event) :
  run distanceTo (evs ++ [ev]) = step distanceTo (run distanceTo evs) ev.
Proof. unfold run. now rewrite foldl_app. Qed.

Lemma run_reachable (evs : list Event) : reachable distanceTo (run distanceTo evs).
Proof.
  induction evs as [|ev evs IH] using rev_ind; [constructor|].
  rewrite run_snoc. now constructor.
Qed.

Lemma reachable_run (s : State) :
  reachable distanceTo s → ∃ evs, s = run distanceTo evs.
Proof.
  induction 1 as [|s ev _ [evs ->]]; [by exists [] |].
  exists (evs ++ [ev]). now rewrite run_snoc.
Qed.

End Invariant.

(** ** The undo stack is bounded *)

Lemma pushUndo_foldl (actions : list UndoAction) :
  foldl (λ stack action, pushUndo action stack) [] actions
  = drop (length actions - MAX_UNDO) actions.
Proof.
  induction actions as [|action actions IH] using rev_ind; [done|].
  rewrite foldl_app. simpl. rewrite IH, length_app. simpl.
  destruct (decide (length actions < MAX_UNDO)%nat) as [Hlt|Hge].
  - replace (length actions - MAX_UNDO)%nat with 0%nat by lia.
    replace (length actions + 1 - MAX_UNDO)%nat with 0%nat by lia.
    simpl. now apply pushUndo_room.
  - rewrite pushUndo_full by (rewrite length_drop; unfold MAX_UNDO in *; lia).
    replace (length actions + 1 - MAX_UNDO)%nat
      with (S (length actions - MAX_UNDO)) by (unfold MAX_UNDO in *; lia).
    rewrite drop_app_le by (unfold MAX_UNDO in *; lia).
    f_equal. generalize (length actions - MAX_UNDO)%nat as n. intros n.
    change (S n) with (1 + n)%nat. rewrite Nat.add_comm, <- drop_drop.
    now destruct (drop n actions).
Qed.

(** ** Unknown ids and an empty stack *)

Lemma onKeyDown_ctrlZ (distanceTo : LatLng → LatLng → Q) (s : State) :
  onKeyDown distanceTo ctrlZ s = undo distanceTo s.
Proof. reflexivity. Qed.

Lemma removeLineFromMap_None (lineId : string) (s : State) :
  lines s !! lineId = None → removeLineFromMap lineId s = s.
Proof. intros H. unfold removeLineFromMap. now rewrite H. Qed.

Lemma deleteLine_None (lineId : string) (s : State) :
  lines s !! lineId = None → deleteLine lineId s = s.
Proof. intros H. unfold deleteLine. now rewrite H. Qed.

Lemma onDeleted_None (lineIds : list string) (s : State) :
  Forall (λ lineId, lines s !! lineId = None) lineIds → onDeleted lineIds s = s.
Proof.
  unfold onDeleted. induction 1 as [|lineId rest Hnone _ IH]; [done|].
  simpl. replace (onDeletedLayer s lineId) with s; [exact IH|].
  unfold onDeletedLayer. rewrite Hnone, delete_id by done. now destruct s.
Qed.

Lemma setLatLngs_None (edits : list (string * list LatLng)) (s : State) :
  Forall (λ edit, lines s !! edit.1 = None) edits → foldl setLatLngs s edits = s.
Proof.
  induction 1 as [|edit rest Hnone _ IH]; [done|].
  simpl. replace (setLatLngs s edit) with s; [exact IH|].
  unfold setLatLngs, set_lines. rewrite alter_id' by done. now destruct s.
Qed.

Lemma onEdited_None (distanceTo : LatLng → LatLng → Q)
    (edits : list (string * list LatLng)) (s : State) :
  Forall (λ edit, lines s !! edit.1 = None) edits → onEdited distanceTo edits s = s.
Proof.
  intros H. unfold onEdited. rewrite setLatLngs_None by done.
  induction H as [|edit rest Hnone _ IH]; [done|].
  simpl. now rewrite updateLineLabel_None.
Qed.

Lemma undo_empty (distanceTo : LatLng → LatLng → Q) (s : State) :
  undoStack s = [] → undo distanceTo s = s.
Proof. intros H. unfold undo. now rewrite H. Qed.

(** C9. An id the registry does not know is ignored by the edit handler, by
    both removals and by the sidebar's delete, and undo with an empty stack
    does nothing: the state (registry, labels on the map, undo stack) is the
    one before. *)
Theorem unknown_id_noop (distanceTo : LatLng → LatLng → Q) (s : State) :
  (∀ lineId vertices, lines s !! lineId = None →
     step distanceTo s (DrawEdited [(lineId, vertices)]) = s ∧
     updateLineLabel distanceTo lineId s = s ∧
     step distanceTo s (DrawDeleted [lineId]) = s ∧
     removeLineFromMap lineId s = s ∧
     step distanceTo s (ClickDelete lineId) = s) ∧
  (undoStack s = [] →
     undo distanceTo s = s ∧ step distanceTo s (KeyDown ctrlZ) = s).
Proof.
  split.
  - intros lineId vertices Hnone. repeat split.
    + apply (onEdited_None distanceTo [(lineId, vertices)]). by repeat constructor.
    + now apply updateLineLabel_None.
    + apply (onDeleted_None [lineId]). by repeat constructor.
    + now apply removeLineFromMap_None.
    + now apply deleteLine_None.
  - intros Hempty. split; [|change (step distanceTo s (KeyDown ctrlZ))
                              with (undo distanceTo s)]; now apply undo_empty.
Qed.

Lemma unknown_id_noop_witness :
  step taxicab (run taxicab [DrawCreated [pt 0 0; pt 0 1]; ClickClear])
    (ClickDelete "line-7")
  = run taxicab [DrawCreated [pt 0 0; pt 0 1]; ClickClear] ∧
  step taxicab init (KeyDown ctrlZ) = init.
Proof.
  split.
  - destruct (unknown_id_noop taxicab
                (run taxicab [DrawCreated [pt 0 0; pt 0 1]; ClickClear])) as [H _].
    apply (H "line-7"%string []). vm_compute. reflexivity.
  - destruct (unknown_id_noop taxicab init) as [_ H]. apply H. reflexivity.
Defined.

(** ** Creation: numbering, colours and undo *)

Section Creation.

Variable distanceTo : LatLng → LatLng → Q.

Lemma foldl_updateLineLabel_lineCounter (lineIds : list string) (s : State) :
  lineCounter (foldl (λ s lineId, updateLineLabel distanceTo lineId s) s lineIds)
  = lineCounter s.
Proof.
  revert s. induction lineIds as [|lineId rest IH]; intros s; [done|].
  simpl. now rewrite IH, updateLineLabel_lineCounter.
Qed.

Lemma foldl_setLatLngs_lineCounter (edits : list (string * list LatLng)) (s : State) :
  lineCounter (foldl setLatLngs s edits) = lineCounter s.
Proof. revert s. induction edits as [|e rest IH]; intros s; [done|]. simpl. now rewrite IH. Qed.

Lemma onDeleted_lineCounter (lineIds : list string) (s : State) :
  lineCounter (onDeleted lineIds s) = lineCounter s.
Proof.
  unfold onDeleted. revert s. induction lineIds as [|l rest IH]; intros s; [done|].
  simpl. now rewrite IH.
Qed.

Lemma undo_lineCounter (s : State) : lineCounter (undo distanceTo s) = lineCounter s.
Proof.
  unfold undo. destruct (pop (undoStack s)) as [[[lineId|lineId latlngs c n] rest]|]; [| |done].
  - now rewrite removeLineFromMap_lineCounter.
  - unfold restoreLine. now rewrite updateLineLabel_lineCounter.
Qed.

Lemma step_lineCounter (s : State) (ev : Event) :
  lineCounter (step distanceTo s ev)
  = lineCounter s + if isCreated ev then 1 else 0.
Proof.
  destruct ev; simpl.
  - unfold onCreated. now rewrite updateLineLabel_lineCounter.
  - unfold onEdited.
    rewrite foldl_updateLineLabel_lineCounter, foldl_setLatLngs_lineCounter. lia.
  - rewrite onDeleted_lineCounter. lia.
  - unfold deleteLine. destruct (lines s !! lineId); [|lia].
    rewrite removeLineFromMap_lineCounter. simpl. lia.
  - lia.
  - unfold onKeyDown. destruct ((ctrlKey e || metaKey e) && String.eqb (key e) "z"); [|lia].
    rewrite undo_lineCounter. lia.
Qed.

(** The counter counts the paths the draw tool has finished. *)
Lemma run_lineCounter (evs : list Event) :
  lineCounter (run distanceTo evs) = createdCount evs.
Proof.
  induction evs as [|ev evs IH] using rev_ind; [done|].
  rewrite run_snoc, step_lineCounter, IH. unfold createdCount.
  rewrite List.filter_app, length_app. simpl.
  destruct (isCreated ev); simpl; lia.
Qed.

(** What [onCreated] registers, and what it leaves on the stack. *)
Lemma onCreated_spec (vertices : list LatLng) (s : State) :
  let i := lineCounter s + 1 in
  ∃ ls,
    lines (onCreated distanceTo vertices s)
      = <[lineId_of i := mkLineData (Flat vertices) ls (lineColor i) i]> (lines s) ∧
    label_marker <$> ls = lineMarkers distanceTo vertices (lineColor i) ∧
    undoStack (onCreated distanceTo vertices s)
      = pushUndo (ActCreate (lineId_of i)) (undoStack s) ∧
    lineCounter (onCreated distanceTo vertices s) = i.
Proof.
  intros i. unfold onCreated. fold i.
  set (s0 := mkState i _ _ _ _).
  destruct (updateLineLabel_Some distanceTo (lineId_of i) s0
              (mkLineData (Flat vertices) [] (lineColor i) i)) as (ls & Hl & Hsync).
  { subst s0. simpl. apply lookup_insert_eq. }
  exists ls. rewrite Hl, updateLineLabel_undoStack, updateLineLabel_lineCounter.
  subst s0. simpl. rewrite insert_insert_eq. done.
Qed.

(** The id about to be handed out is not registered. *)
Lemma next_lineId_fresh (s : State) :
  reachable distanceTo s → lines s !! lineId_of (lineCounter s + 1) = None.
Proof.
  intros Hs. destruct (lines s !! lineId_of (lineCounter s + 1)) as [d|] eqn:Hd; [|done].
  destruct (inv_lines _ _ _ (reachable_Inv distanceTo s Hs) _ _ Hd) as [(Hid & Hn & _) _].
  apply lineId_of_inj in Hid. lia.
Qed.

(** C8. Whatever the events so far, deletions included, the path created
    next gets the next sequence number [i] (one more than the number of
    paths created before) and the colour [palette[(i-1) mod 8]] of the
    8-entry palette; and every registered path carries the palette colour of
    its own sequence number. *)
Theorem created_color (evs : list Event) (vertices : list LatLng) :
  let s := run distanceTo evs in
  let i := createdCount evs + 1 in
  length LINE_COLORS = 8%nat ∧
  (∃ d, lines (step distanceTo s (DrawCreated vertices)) !! lineId_of i = Some d ∧
        number d = i ∧
        LINE_COLORS !! Z.to_nat ((i - 1) mod 8) = Some (color d)) ∧
  (∀ k d, lines s !! k = Some d →
          LINE_COLORS !! Z.to_nat ((number d - 1) mod 8) = Some (color d)).
Proof.
  intros s i. split; [reflexivity|]. split.
  - destruct (onCreated_spec vertices s) as (ls & Hl & _).
    subst s. rewrite run_lineCounter in Hl. fold i in Hl.
    eexists. simpl step. rewrite Hl, lookup_insert_eq. split; [reflexivity|].
    simpl. split; [reflexivity|]. apply lineColor_palette.
    unfold i, createdCount. lia.
  - intros k d Hk.
    destruct (inv_lines _ _ _ (reachable_Inv distanceTo s (run_reachable distanceTo evs)) _ _ Hk)
      as [(_ & Hn & Hcol & _) _].
    rewrite Hcol. apply lineColor_palette. lia.
Qed.

(** C5. Creating a path and undoing at once removes it: the registry is the
    one before the creation, so it has as many paths, and the undo only
    takes the creation's entry off the stack, adding none. *)
Theorem create_undo (s : State) (vertices : list LatLng) :
  reachable distanceTo s →
  let lineId := lineId_of (lineCounter s + 1) in
  let s1 := step distanceTo s (DrawCreated vertices) in
  let s2 := step distanceTo s1 (KeyDown ctrlZ) in
  is_Some (lines s1 !! lineId) ∧
  size (lines s1) = S (size (lines s)) ∧
  lines s2 !! lineId = None ∧
  lines s2 = lines s ∧
  size (lines s2) = size (lines s) ∧
  undoStack s1 = undoStack s2 ++ [ActCreate lineId] ∧
  undoStack s2 = (if decide (length (undoStack s) < MAX_UNDO)%nat
                  then undoStack s else tail (undoStack s)).
Proof.
  intros Hs lineId s1 s2.
  pose proof (next_lineId_fresh s Hs) as Hfresh. fold lineId in Hfresh.
  destruct (onCreated_spec vertices s) as (ls & Hl & _ & Hu & _).
  fold lineId in Hl, Hu. change (onCreated distanceTo vertices s) with s1 in Hl, Hu.
  destruct (pushUndo_last (ActCreate lineId) (undoStack s)) as (rest & Hpush & Hrest).
  rewrite Hpush in Hu.
  assert (lines s2 = lines s ∧ undoStack s2 = rest) as [Hl2 Hu2].
  { subst s2. change (step distanceTo s1 (KeyDown ctrlZ)) with (undo distanceTo s1).
    unfold undo. rewrite Hu, pop_snoc.
    rewrite removeLineFromMap_lines, removeLineFromMap_undoStack. simpl.
    rewrite Hl. split; [|done]. now apply delete_insert_id. }
  rewrite Hl2, Hu2, Hu, Hl. repeat split; try done.
  - rewrite lookup_insert_eq. by eexists.
  - now apply map_size_insert_None.
Qed.

End Creation.

Lemma create_undo_witness :
  lines (step taxicab
           (step taxicab (run taxicab [DrawCreated [pt 0 0; pt 0 1]])
              (DrawCreated [pt 1 1; pt 2 2]))
           (KeyDown ctrlZ))
  = lines (run taxicab [DrawCreated [pt 0 0; pt 0 1]]).
Proof.
  apply (create_undo taxicab (run taxicab [DrawCreated [pt 0 0; pt 0 1]])
           [pt 1 1; pt 2 2] (run_reachable taxicab _)).
Defined.

(** ** Deleting, clearing and undo *)

Lemma last_List_last {A} (l : list A) (x d : A) : last (x :: l) = Some (List.last (x :: l) d).
Proof.
  revert x. induction l as [|y l IH]; intros x; [done|].
  change (last (x :: y :: l)) with (last (y :: l)).
  change (List.last (x :: y :: l) d) with (List.last (y :: l) d). apply IH.
Qed.

Section DeleteClearUndo.

Variable distanceTo : LatLng → LatLng → Q.

(** What the sidebar's delete does to a registered line. *)
Lemma deleteLine_spec (lineId : string) (s : State) (d : LineData) :
  lines s !! lineId = Some d →
  lines (deleteLine lineId s) = delete lineId (lines s) ∧
  undoStack (deleteLine lineId s)
  = pushUndo (ActDelete lineId (flattenLatLngs (polyline d)) (color d) (number d))
      (undoStack s) ∧
  lineCounter (deleteLine lineId s) = lineCounter s.
Proof.
  intros Hd. unfold deleteLine. rewrite Hd.
  now rewrite removeLineFromMap_lines, removeLineFromMap_undoStack,
    removeLineFromMap_lineCounter.
Qed.

(** What [restoreLine] registers. *)
Lemma restoreLine_spec (latlngs : list LatLng) (color : string) (n : Z) (s : State) :
  ∃ ls,
    lines (restoreLine distanceTo latlngs color n s)
      = <[lineId_of n := mkLineData (Flat latlngs) ls color n]> (lines s) ∧
    label_marker <$> ls = lineMarkers distanceTo latlngs color ∧
    undoStack (restoreLine distanceTo latlngs color n s) = undoStack s.
Proof.
  unfold restoreLine.
  set (s0 := set_lines _ s).
  destruct (updateLineLabel_Some distanceTo (lineId_of n) s0
              (mkLineData (Flat latlngs) [] color n)) as (ls & Hl & Hsync).
  { subst s0. simpl. apply lookup_insert_eq. }
  exists ls. rewrite Hl, updateLineLabel_undoStack.
  subst s0. simpl. now rewrite insert_insert_eq.
Qed.

(** C3, as amended. For a registered path, the sidebar's delete followed by
    undo puts back a path under the same id, which is ["line-"] followed by
    the sequence number, with the same vertices, colour and sequence number,
    and with rebuilt labels that agree with the former ones in number,
    position and text; the other paths are as they were. *)
Theorem delete_undo_restores (s : State) (lineId : string) (d : LineData) :
  reachable distanceTo s →
  lines s !! lineId = Some d →
  let s' := step distanceTo (step distanceTo s (ClickDelete lineId)) (KeyDown ctrlZ) in
  lineId = ("line-" ++ string_of_Z (number d))%string ∧
  lines (step distanceTo s (ClickDelete lineId)) !! lineId = None ∧
  ∃ d', lines s' = <[lineId := d']> (lines s) ∧
        polyline d' = polyline d ∧ color d' = color d ∧ number d' = number d ∧
        length (labels d') = length (labels d) ∧
        marker_text ∘ label_marker <$> labels d'
          = marker_text ∘ label_marker <$> labels d ∧
        label_marker <$> labels d' = label_marker <$> labels d.
Proof.
  intros Hs Hd s'.
  destruct (inv_lines _ _ _ (reachable_Inv distanceTo s Hs) _ _ Hd)
    as [(Hid & Hn & Hcol & vertices & Hflat) [[]|Hsync]].
  destruct (deleteLine_spec lineId s d Hd) as (Hl1 & Hu1 & _).
  destruct (pushUndo_last
              (ActDelete lineId (flattenLatLngs (polyline d)) (color d) (number d))
              (undoStack s)) as (rest & Hpush & _).
  rewrite Hpush in Hu1.
  split; [exact Hid|]. split.
  { change (step distanceTo s (ClickDelete lineId)) with (deleteLine lineId s).
    rewrite Hl1. apply lookup_delete_eq. }
  subst s'. change (step distanceTo s (ClickDelete lineId)) with (deleteLine lineId s).
  change (step distanceTo (deleteLine lineId s) (KeyDown ctrlZ))
    with (undo distanceTo (deleteLine lineId s)).
  unfold undo. rewrite Hu1, pop_snoc.
  destruct (restoreLine_spec (flattenLatLngs (polyline d)) (color d) (number d)
              (set_undoStack (λ _, rest) (deleteLine lineId s))) as (ls & Hl & Hls & _).
  rewrite Hl. simpl lines. rewrite Hl1, <- Hid, insert_delete_eq.
  eexists. split; [reflexivity|]. simpl.
  unfold synced in Hsync. rewrite <- Hsync in Hls.
  rewrite Hflat. simpl. repeat split.
  - rewrite <- (length_fmap label_marker ls), Hls. apply length_fmap.
  - rewrite !list_fmap_compose. now rewrite Hls.
  - exact Hls.
Qed.

(** C2, as amended. After [clearAll] and undo no path that the clearing
    removed is registered; the registry is empty unless the most recent undo
    entry is a delete, and then it holds just the path of that entry, which
    had been deleted before the clearing. *)
Theorem clearAll_undo_restores_no_cleared_path (s : State) :
  reachable distanceTo s →
  let s' := step distanceTo (step distanceTo s ClickClear) (KeyDown ctrlZ) in
  lines (step distanceTo s ClickClear) = ∅ ∧
  undoStack (step distanceTo s ClickClear) = undoStack s ∧
  (∀ k, is_Some (lines s !! k) → lines s' !! k = None) ∧
  match last (undoStack s) with
  | Some (ActDelete _ latlngs color n) =>
      lines s !! lineId_of n = None ∧
      ∃ ls, lines s' = {[ lineId_of n := mkLineData (Flat latlngs) ls color n ]}
  | _ => lines s' = ∅
  end.
Proof.
  intros Hs s'. split; [done|]. split; [done|].
  pose proof (reachable_Inv distanceTo s Hs) as HI.
  assert (match last (undoStack s) with
          | Some (ActDelete _ latlngs color n) =>
              lines s !! lineId_of n = None ∧
              ∃ ls, lines s' = {[ lineId_of n := mkLineData (Flat latlngs) ls color n ]}
          | _ => lines s' = ∅
          end) as Hcase.
  { subst s'. change (step distanceTo s ClickClear) with (clearAll s).
    change (step distanceTo (clearAll s) (KeyDown ctrlZ)) with (undo distanceTo (clearAll s)).
    unfold undo. simpl undoStack.
    destruct (undoStack s) as [|x stack'] eqn:Hstack using rev_ind; [done|].
    rewrite pop_snoc, last_snoc.
    destruct x as [lineId|lineId latlngs color n].
    - rewrite removeLineFromMap_lines. simpl. apply delete_empty.
    - pose proof (inv_stack _ _ _ HI) as Hall. rewrite Hstack in Hall.
      apply Forall_app in Hall as [_ Hx]. rewrite Forall_singleton in Hx.
      destruct Hx as (_ & _ & _ & Hnone). split; [exact Hnone|].
      destruct (restoreLine_spec latlngs color n
                  (set_undoStack (λ _, stack') (clearAll s))) as (ls & Hl & _).
      exists ls. rewrite Hl. simpl. apply insert_empty. }
  split; [|exact Hcase].
  intros k [d Hk].
  destruct (last (undoStack s)) as [[lineId|lineId latlngs color n]|].
  - rewrite Hcase. apply lookup_empty.
  - destruct Hcase as (Hnone & ls & Hl). rewrite Hl.
    apply lookup_singleton_None. intros <-. congruence.
  - rewrite Hcase. apply lookup_empty.
Qed.

(** C1, as amended. In every reachable state a path with at least two
    vertices has, last among its labels, the total label: it stands at the
    path's last vertex and reads ["Total: "] followed by the walking time of
    the path's full length (feet divided by 3 ft/s) in the short form
    (["<1m"], ["<N>m"]). *)
Theorem total_label_text (s : State) (lineId : string) (d : LineData) :
  reachable distanceTo s →
  lines s !! lineId = Some d →
  let latlngs := flattenLatLngs (polyline d) in
  (2 ≤ length latlngs)%nat →
  length (labels d) = length latlngs ∧
  ∃ label,
    last (labels d) = Some label ∧
    last latlngs = Some (marker_latlng (label_marker label)) ∧
    marker_className (label_marker label) = "line-label total-label"%string ∧
    marker_text (label_marker label)
    = ("Total: " ++
       formatTime (calculateDistance distanceTo latlngs / WALKING_SPEED_FT_PER_SEC)%Q)%string.
Proof.
  intros Hs Hd latlngs Hlen.
  destruct (inv_lines _ _ _ (reachable_Inv distanceTo s Hs) _ _ Hd) as [_ [[]|Hsync]].
  unfold synced in Hsync. fold latlngs in Hsync.
  destruct latlngs as [|a [|b rest]] eqn:Hl; simpl in Hlen; try lia.
  unfold lineMarkers in Hsync. split.
  { rewrite <- (length_fmap label_marker), Hsync, length_app, length_segmentMarkers.
    simpl. lia. }
  pose proof (f_equal last Hsync) as Hlast.
  rewrite fmap_last, last_snoc in Hlast.
  destruct (last (labels d)) as [label|]; [|done].
  injection Hlast as Hlast. exists label. rewrite Hlast. simpl.
  repeat split.
  - symmetry. f_equal. symmetry. apply (last_List_last (b :: rest) a a).
  - f_equal. apply formatTime_comp.
    now rewrite (sumFeet_calculateDistance distanceTo (a :: b :: rest)).
Qed.

End DeleteClearUndo.

(** ** The specification's scenario, run *)

Lemma total_label_text_witness :
  ∃ d label,
    lines (run taxicab [DrawCreated scenarioPath]) !! "line-1"%string = Some d ∧
    last (labels d) = Some label ∧
    marker_text (label_marker label) = "Total: 4m"%string.
Proof.
  pose (s := run taxicab [DrawCreated scenarioPath]).
  destruct (lines s !! "line-1"%string) as [d|] eqn:Hd; [|vm_compute in Hd; discriminate].
  destruct (total_label_text taxicab s "line-1" d (run_reachable taxicab _) Hd)
    as (_ & label & Hlast & _ & _ & Htext).
  { vm_compute in Hd. injection Hd as <-. simpl. lia. }
  exists d, label. split; [exact Hd|]. split; [exact Hlast|].
  rewrite Htext. vm_compute in Hd. injection Hd as <-. vm_compute. reflexivity.
Defined.

(** C1 as stated fails: the total label is formatted by [formatTime], the
    short form, so the scenario's path reads ["Total: 4m"], not
    ["Total: 4 min"]. *)
Lemma total_label_long_counterexample :
  ¬ (∀ s lineId d,
       reachable taxicab s → lines s !! lineId = Some d →
       (2 ≤ length (flattenLatLngs (polyline d)))%nat →
       ∃ label,
         last (labels d) = Some label ∧
         marker_text (label_marker label)
         = ("Total: " ++
            formatTimeLong (calculateDistance taxicab (flattenLatLngs (polyline d))
                            / WALKING_SPEED_FT_PER_SEC)%Q)%string).
Proof.
  intros H.
  pose (s := run taxicab [DrawCreated scenarioPath]).
  destruct (lines s !! "line-1"%string) as [d|] eqn:Hd; [|vm_compute in Hd; discriminate].
  destruct (H s "line-1"%string d (run_reachable taxicab _) Hd) as (label & Hlast & Htext).
  { vm_compute in Hd. injection Hd as <-. simpl. lia. }
  vm_compute in Hd. injection Hd as <-.
  vm_compute in Hlast. injection Hlast as <-.
  vm_compute in Htext. discriminate.
Qed.

Lemma clearAll_undo_restores_no_cleared_path_witness :
  lines (run taxicab [DrawCreated scenarioPath; DrawCreated [pt 0 0; pt 0 1];
                      ClickClear; KeyDown ctrlZ]) !! "line-1"%string = None.
Proof.
  destruct (clearAll_undo_restores_no_cleared_path taxicab
              (run taxicab [DrawCreated scenarioPath; DrawCreated [pt 0 0; pt 0 1]])
              (run_reachable taxicab _)) as (_ & _ & H & _).
  apply (H "line-1"%string). vm_compute. eexists. reflexivity.
Defined.

(** C2 as stated fails: a path deleted from the sidebar before the clearing
    is restored by the undo that follows it. *)
Lemma clearAll_undo_counterexample :
  ¬ (∀ s, reachable taxicab s →
          lines (step taxicab (step taxicab s ClickClear) (KeyDown ctrlZ)) = ∅).
Proof.
  intros H.
  specialize (H (run taxicab [DrawCreated scenarioPath; ClickDelete "line-1"])
                (run_reachable taxicab _)).
  apply (f_equal (λ m, m !! "line-1"%string)) in H.
  vm_compute in H. discriminate.
Qed.

Lemma delete_undo_restores_witness :
  ∃ d', lines (run taxicab [DrawCreated scenarioPath; ClickDelete "line-1";
                             KeyDown ctrlZ]) !! "line-1"%string = Some d' ∧
        polyline d' = Flat scenarioPath ∧ number d' = 1 ∧
        marker_text ∘ label_marker <$> labels d' = ["4m"; "Total: 4m"]%string.
Proof.
  pose (s := run taxicab [DrawCreated scenarioPath]).
  destruct (lines s !! "line-1"%string) as [d|] eqn:Hd; [|vm_compute in Hd; discriminate].
  destruct (delete_undo_restores taxicab s "line-1" d (run_reachable taxicab _) Hd)
    as (_ & _ & d' & Hl & Hp & _ & Hn & _ & Ht & _).
  exists d'. split; [|split; [|split]].
  - change (run taxicab [DrawCreated scenarioPath; ClickDelete "line-1"; KeyDown ctrlZ])
      with (step taxicab (step taxicab s (ClickDelete "line-1")) (KeyDown ctrlZ)).
    rewrite Hl. apply lookup_insert_eq.
  - rewrite Hp. vm_compute in Hd. now injection Hd as <-.
  - rewrite Hn. vm_compute in Hd. now injection Hd as <-.
  - rewrite Ht. vm_compute in Hd. now injection Hd as <-.
Defined.

(** C3 as stated fails on the id's spelling: ids are ["line-"] followed by
    the sequence number, not ["path-"]. *)
Lemma delete_undo_path_id_counterexample :
  ¬ (∀ s lineId d,
       reachable taxicab s → lines s !! lineId = Some d →
       let s' := step taxicab (step taxicab s (ClickDelete lineId)) (KeyDown ctrlZ) in
       lineId = ("path-" ++ string_of_Z (number d))%string ∧
       ∃ d', lines s' !! lineId = Some d' ∧
             polyline d' = polyline d ∧ color d' = color d ∧ number d' = number d ∧
             marker_text ∘ label_marker <$> labels d'
             = marker_text ∘ label_marker <$> labels d).
Proof.
  intros H.
  pose (s := run taxicab [DrawCreated scenarioPath]).
  destruct (lines s !! "line-1"%string) as [d|] eqn:Hd; [|vm_compute in Hd; discriminate].
  destruct (H s "line-1"%string d (run_reachable taxicab _) Hd) as [Hid _].
  vm_compute in Hd. injection Hd as <-. vm_compute in Hid. discriminate.
Qed.

(** ** More on path lengths *)

Section PathLength.

Variable distanceTo : LatLng → LatLng → Q.

Lemma sumMeters_pairwise (latlngs : list LatLng) (total : Q) :
  (sumMeters distanceTo latlngs total
   == total + foldr Qplus 0 (zip_with distanceTo latlngs (tail latlngs)))%Q.
Proof.
  revert total. induction latlngs as [|a rest IH]; intros total.
  - simpl. lra.
  - destruct rest as [|b rest'].
    + simpl. lra.
    + change (sumMeters distanceTo (a :: b :: rest') total)
        with (sumMeters distanceTo (b :: rest') (total + distanceTo a b)%Q).
      rewrite IH. simpl. lra.
Qed.

(** X1. The length of a polyline is the sum of the distances between
    consecutive vertices, converted to feet; there is nothing to sum below
    two vertices. *)
Theorem calculateDistance_pairwise (latlngs : list LatLng) :
  (calculateDistance distanceTo latlngs
   == foldr Qplus 0 (zip_with distanceTo latlngs (tail latlngs)) * (328084 # 100000))%Q ∧
  (calculateDistance distanceTo [] == 0)%Q ∧
  (∀ p, calculateDistance distanceTo [p] == 0)%Q.
Proof.
  unfold calculateDistance. split; [|split].
  - rewrite sumMeters_pairwise. unfold METERS_TO_FEET. lra.
  - simpl. lra.
  - intros p. simpl. lra.
Qed.

Lemma sumMeters_app (before after : list LatLng) (p : LatLng) (total : Q) :
  (sumMeters distanceTo (before ++ p :: after) total
   == sumMeters distanceTo (before ++ [p]) total + sumMeters distanceTo (p :: after) 0)%Q.
Proof.
  revert total. induction before as [|a rest IH]; intros total.
  - simpl app. rewrite (sumMeters_sumLengths distanceTo (p :: after) total),
      (sumMeters_sumLengths distanceTo (p :: after) 0). simpl. lra.
  - destruct rest as [|b rest'].
    + change (sumMeters distanceTo ([a] ++ p :: after) total)
        with (sumMeters distanceTo ([] ++ p :: after) (total + distanceTo a p)%Q).
      rewrite IH. simpl. lra.
    + change (sumMeters distanceTo ((a :: b :: rest') ++ p :: after) total)
        with (sumMeters distanceTo ((b :: rest') ++ p :: after) (total + distanceTo a b)%Q).
      rewrite IH. reflexivity.
Qed.

Lemma calculateDistance_app (before after : list LatLng) (p : LatLng) :
  (calculateDistance distanceTo (before ++ p :: after)
   == calculateDistance distanceTo (before ++ [p])
      + calculateDistance distanceTo (p :: after))%Q.
Proof. unfold calculateDistance. rewrite sumMeters_app. lra. Qed.

Lemma sumLengths_nonneg (segments : list Segment) :
  Forall (λ seg, (0 <= seg_length seg)%Q) segments → (0 <= sumLengths segments)%Q.
Proof. induction 1 as [|seg rest Hseg _ IH]; simpl; lra. Qed.

Lemma calculateDistance_nonneg_of :
  (∀ a b, (0 <= distanceTo a b)%Q) →
  ∀ latlngs, (0 <= calculateDistance distanceTo latlngs)%Q.
Proof.
  intros Hnn l. unfold calculateDistance. rewrite sumMeters_sumLengths.
  pose proof (sumLengths_nonneg _ (segmentsOf_nonneg distanceTo l Hnn)).
  unfold METERS_TO_FEET. lra.
Qed.

(** X3. With a nonnegative distance a length is never negative, and one more
    vertex at the end never makes a polyline shorter. *)
Theorem calculateDistance_monotone (latlngs : list LatLng) (q : LatLng) :
  (∀ a b, (0 <= distanceTo a b)%Q) →
  (0 <= calculateDistance distanceTo latlngs)%Q ∧
  (calculateDistance distanceTo latlngs
   <= calculateDistance distanceTo (latlngs ++ [q]))%Q.
Proof.
  intros Hnn. pose proof (calculateDistance_nonneg_of Hnn) as Hpos.
  split; [apply Hpos|].
  destruct latlngs as [|a rest] using rev_ind.
  - apply Hpos.
  - rewrite <- app_assoc. simpl app.
    rewrite (calculateDistance_app rest [q] a).
    pose proof (Hpos [a; q]). lra.
Qed.

End PathLength.

Lemma calculateDistance_monotone_witness :
  (calculateDistance taxicab scenarioPath
   <= calculateDistance taxicab (scenarioPath ++ [pt 34 (-84)]))%Q.
Proof.
  apply (calculateDistance_monotone taxicab scenarioPath (pt 34 (-84)) taxicab_nonneg).
Defined.

(** ** More on the midpoint by arc length *)

Lemma findSegment_found (mid acc : Q) (segments : list Segment) :
  Forall (λ seg, (0 <= seg_length seg)%Q) segments →
  segments ≠ [] → (mid <= acc + sumLengths segments)%Q →
  is_Some (findSegment mid acc segments).
Proof.
  revert acc. induction segments as [|seg rest IH]; intros acc Hnn Hne Hle; [done|].
  simpl in *. inversion Hnn as [|? ? Hseg Hrest]; subst.
  destruct (Qle_bool mid (acc + seg_length seg)) eqn:Htest; [by eexists|].
  assert (¬ (mid <= acc + seg_length seg)%Q) as Hn.
  { intros Hc. apply Qle_bool_iff in Hc. congruence. }
  apply IH; [done | | lra].
  intros ->. simpl in Hle. lra.
Qed.

Section MidpointMore.

Variable distanceTo : LatLng → LatLng → Q.

Lemma elem_of_segmentsOf (seg : Segment) (latlngs : list LatLng) :
  seg ∈ segmentsOf distanceTo latlngs →
  ∃ i, latlngs !! i = Some (seg_start seg) ∧ latlngs !! S i = Some (seg_end seg) ∧
       seg_length seg = distanceTo (seg_start seg) (seg_end seg).
Proof.
  induction latlngs as [|a rest IH]; [by intros ?%not_elem_of_nil|].
  destruct rest as [|b rest']; [by intros ?%not_elem_of_nil|].
  change (segmentsOf distanceTo (a :: b :: rest'))
    with (mkSegment a b (distanceTo a b) :: segmentsOf distanceTo (b :: rest')).
  intros [->|Hin]%elem_of_cons.
  - exists 0%nat. done.
  - destruct (IH Hin) as (i & H1 & H2 & H3). exists (S i). done.
Qed.

(** X4. With a nonnegative distance the loop of [getMidpoint] always returns
    from inside: the fallback on the vertex of index floor(n/2) is never
    reached on two or more vertices. *)
Theorem getMidpoint_fallback_unreachable (latlngs : list LatLng) :
  (∀ a b, (0 <= distanceTo a b)%Q) →
  (2 ≤ length latlngs)%nat →
  let collected := collectSegments distanceTo latlngs 0 [] in
  ∃ r, midLoop (collected.1 / (2 # 1)) 0 collected.2 = Some r ∧
       getMidpoint distanceTo latlngs = r.
Proof.
  intros Hnn Hlen collected. subst collected.
  rewrite collectSegments_eq. simpl fst. simpl snd.
  destruct latlngs as [|a [|b rest]]; simpl in Hlen; try lia.
  pose proof (sumMeters_sumLengths distanceTo (a :: b :: rest) 0) as Hsum.
  pose proof (segmentsOf_nonneg distanceTo (a :: b :: rest) Hnn) as Hall.
  pose proof (sumLengths_nonneg _ Hall) as Hpos.
  destruct (findSegment_found (sumMeters distanceTo (a :: b :: rest) 0 / (2 # 1)) 0
              (segmentsOf distanceTo (a :: b :: rest)) Hall) as [[seg acc] Hf].
  { done. }
  { rewrite Hsum. apply Qle_shift_div_r; lra. }
  rewrite getMidpoint_unfold, midLoop_findSegment, Hf. simpl. by eexists.
Qed.

End MidpointMore.

Lemma getMidpoint_fallback_unreachable_witness :
  ∃ r, getMidpoint taxicab (scenarioPath ++ [pt 34 (-84)]) = r ∧ r ≠ MidNull.
Proof.
  assert (Hlen : (2 ≤ length (scenarioPath ++ [pt 34 (-84)]))%nat) by (simpl; lia).
  destruct (getMidpoint_fallback_unreachable taxicab _ taxicab_nonneg Hlen) as (r & _ & Hr).
  exists r. split; [exact Hr|]. rewrite <- Hr. vm_compute. discriminate.
Defined.

(** ** More on label layout *)

Section LabelLayoutMore.

Variable distanceTo : LatLng → LatLng → Q.

Lemma segmentMarkers_lookup (latlngs : list LatLng) (color : string) (i : nat) (a b : LatLng) :
  latlngs !! i = Some a → latlngs !! S i = Some b →
  segmentMarkers distanceTo latlngs color !! i
  = Some (createSegmentLabel (getSegmentMidpoint a b)
            (formatTime (distanceTo a b * METERS_TO_FEET / WALKING_SPEED_FT_PER_SEC)%Q) color).
Proof.
  revert i. induction latlngs as [|x rest IH]; intros i Ha Hb; [done|].
  destruct rest as [|y rest']; [done|].
  change (segmentMarkers distanceTo (x :: y :: rest') color)
    with (createSegmentLabel (getSegmentMidpoint x y)
            (formatTime (distanceTo x y * METERS_TO_FEET / WALKING_SPEED_FT_PER_SEC)%Q) color
          :: segmentMarkers distanceTo (y :: rest') color).
  destruct i as [|i].
  - simpl in Ha, Hb. injection Ha as ->. injection Hb as ->. done.
  - simpl in Ha. simpl. apply IH; done.
Qed.

(** X7. In every reachable state the label of index [i] of a path stands at the
    midpoint of its segment [i] (the mean of the two vertices' latitudes
    and longitudes), carries the path's colour and shows the segment's
    walking time, its feet divided by 3 ft/s, in the short form. *)
Theorem segment_label (s : State) (lineId : string) (d : LineData)
    (i : nat) (a b : LatLng) :
  reachable distanceTo s →
  lines s !! lineId = Some d →
  flattenLatLngs (polyline d) !! i = Some a →
  flattenLatLngs (polyline d) !! S i = Some b →
  ∃ label,
    labels d !! i = Some label ∧
    label_marker label
    = {| marker_latlng := {| lat := (lat a + lat b) / (2 # 1);
                             lng := (lng a + lng b) / (2 # 1) |}%Q;
         marker_className := "line-label";
         marker_text := formatTime (distanceTo a b * (328084 # 100000) / (3 # 1))%Q;
         marker_color := color d |}.
Proof.
  intros Hs Hd Ha Hb.
  destruct (inv_lines _ _ _ (reachable_Inv distanceTo s Hs) _ _ Hd) as [_ [[]|Hsync]].
  unfold synced in Hsync.
  pose proof (segmentMarkers_lookup _ (color d) i a b Ha Hb) as Hseg.
  assert ((label_marker <$> labels d) !! i
          = Some (createSegmentLabel (getSegmentMidpoint a b)
                    (formatTime (distanceTo a b * METERS_TO_FEET / WALKING_SPEED_FT_PER_SEC)%Q)
                    (color d))) as Hi.
  { rewrite Hsync. unfold lineMarkers.
    destruct (flattenLatLngs (polyline d)) as [|x [|y rest]]; [done | done |].
    rewrite lookup_app_l; [exact Hseg|]. now apply lookup_lt_Some in Hseg. }
  rewrite list_lookup_fmap in Hi.
  destruct (labels d !! i) as [label|]; [|done].
  injection Hi as Hi. exists label. split; [done|]. exact Hi.
Qed.

(** X8. In every reachable state a path has no labels exactly when it has fewer
    than two vertices. *)
Theorem no_labels_iff_short (s : State) (lineId : string) (d : LineData) :
  reachable distanceTo s →
  lines s !! lineId = Some d →
  labels d = [] ↔ (length (flattenLatLngs (polyline d)) < 2)%nat.
Proof.
  intros Hs Hd.
  destruct (inv_lines _ _ _ (reachable_Inv distanceTo s Hs) _ _ Hd) as [_ [[]|Hsync]].
  unfold synced, lineMarkers in Hsync.
  destruct (flattenLatLngs (polyline d)) as [|x [|y rest]].
  - split; [simpl; lia|]. intros _. now apply fmap_nil_inv in Hsync.
  - split; [simpl; lia|]. intros _. now apply fmap_nil_inv in Hsync.
  - split; [|simpl; lia]. intros Hnil. rewrite Hnil in Hsync. simpl in Hsync.
    by destruct (segmentMarkers distanceTo (x :: y :: rest) (color d)).
Qed.

(** X9. After the edit tool has changed a registered path, the path has the new
    vertices and labels rebuilt for them; its id, colour and number, the
    other paths, the counter and the undo stack are as before. *)
Theorem edit_relabels (s : State) (lineId : string) (d : LineData)
    (vertices : list LatLng) :
  lines s !! lineId = Some d →
  let s' := step distanceTo s (DrawEdited [(lineId, vertices)]) in
  ∃ d', lines s' = <[lineId := d']> (lines s) ∧
        polyline d' = Flat vertices ∧ color d' = color d ∧ number d' = number d ∧
        synced distanceTo d' ∧
        undoStack s' = undoStack s ∧ lineCounter s' = lineCounter s.
Proof.
  intros Hd s'. subst s'.
  change (step distanceTo s (DrawEdited [(lineId, vertices)]))
    with (updateLineLabel distanceTo lineId (setLatLngs s (lineId, vertices))).
  destruct (updateLineLabel_Some distanceTo lineId (setLatLngs s (lineId, vertices))
              (mkLineData (Flat vertices) (labels d) (color d) (number d)))
    as (ls & Hl & Hsync).
  { simpl. rewrite lookup_alter, decide_True by done. now rewrite Hd. }
  exists (mkLineData (Flat vertices) ls (color d) (number d)).
  rewrite Hl, updateLineLabel_undoStack, updateLineLabel_lineCounter.
  simpl. split; [|repeat split; exact Hsync].
  apply map_eq. intros k. destruct (decide (k = lineId)) as [->|Hne].
  - now rewrite !lookup_insert_eq.
  - rewrite !lookup_insert_ne by done. rewrite lookup_alter, decide_False by done. done.
Qed.

End LabelLayoutMore.

Lemma segment_label_witness :
  ∃ d label,
    lines (run taxicab [DrawCreated scenarioPath]) !! "line-1"%string = Some d ∧
    labels d !! 0%nat = Some label ∧
    marker_text (label_marker label) = "4m"%string.
Proof.
  pose (s := run taxicab [DrawCreated scenarioPath]).
  destruct (lines s !! "line-1"%string) as [d|] eqn:Hd; [|vm_compute in Hd; discriminate].
  destruct (segment_label taxicab s "line-1" d 0
              (mkLatLng (3364 # 100) (-8443 # 100))
              (mkLatLng (33641 # 1000) (-84429 # 1000))
              (run_reachable taxicab _) Hd) as (label & Hl & Hm).
  { vm_compute in Hd. now injection Hd as <-. }
  { vm_compute in Hd. now injection Hd as <-. }
  exists d, label. split; [exact Hd|]. split; [exact Hl|].
  rewrite Hm. vm_compute. reflexivity.
Defined.

Lemma no_labels_iff_short_witness :
  ∃ d, lines (run taxicab [DrawCreated [pt 1 1]]) !! "line-1"%string = Some d ∧
       labels d = [].
Proof.
  pose (s := run taxicab [DrawCreated [pt 1 1]]).
  destruct (lines s !! "line-1"%string) as [d|] eqn:Hd; [|vm_compute in Hd; discriminate].
  exists d. split; [exact Hd|].
  apply (no_labels_iff_short taxicab s "line-1" d (run_reachable taxicab _) Hd).
  vm_compute in Hd. injection Hd as <-. simpl. lia.
Defined.

Lemma edit_relabels_witness :
  ∃ d', lines (step taxicab (run taxicab [DrawCreated scenarioPath])
                 (DrawEdited [("line-1"%string, [pt 0 0; pt 0 1; pt 1 1])]))
          !! "line-1"%string = Some d' ∧
        polyline d' = Flat [pt 0 0; pt 0 1; pt 1 1] ∧ number d' = 1.
Proof.
  pose (s := run taxicab [DrawCreated scenarioPath]).
  destruct (lines s !! "line-1"%string) as [d|] eqn:Hd; [|vm_compute in Hd; discriminate].
  destruct (edit_relabels taxicab s "line-1" d [pt 0 0; pt 0 1; pt 1 1] Hd)
    as (d' & Hl & Hp & _ & Hn & _).
  exists d'. fold s. rewrite Hl, lookup_insert_eq. split; [done|]. split; [done|].
  rewrite Hn. vm_compute in Hd. now injection Hd as <-.
Defined.

(** ** More on the registry and the undo stack *)

Lemma onDeleted_undoStack (lineIds : list string) (s : State) :
  undoStack (onDeleted lineIds s) = undoStack s.
Proof.
  unfold onDeleted. revert s. induction lineIds as [|l rest IH]; intros s; [done|].
  simpl. now rewrite IH.
Qed.

Lemma onDeleted_lookup (lineIds : list string) (s : State) (k : string) :
  lines (onDeleted lineIds s) !! k = if decide (k ∈ lineIds) then None else lines s !! k.
Proof.
  unfold onDeleted. revert s. induction lineIds as [|l rest IH]; intros s.
  - cbn [foldl]. destruct (decide (k ∈ [])) as [Hin|_]; [|done].
    by apply not_elem_of_nil in Hin.
  - cbn [foldl]. rewrite IH. cbn [onDeletedLayer lines].
    destruct (decide (k ∈ rest)) as [Hin|Hnin], (decide (k ∈ l :: rest)) as [Hin'|Hnin'];
      try done.
    + exfalso. apply Hnin'. now apply list_elem_of_further.
    + apply elem_of_cons in Hin' as [->|Hin']; [|done]. apply lookup_delete_eq.
    + apply lookup_delete_ne. intros ->. apply Hnin'. apply list_elem_of_here.
Qed.

Section RegistryMore.

Variable distanceTo : LatLng → LatLng → Q.

Lemma foldl_updateLineLabel_undoStack (lineIds : list string) (s : State) :
  undoStack (foldl (λ s lineId, updateLineLabel distanceTo lineId s) s lineIds)
  = undoStack s.
Proof.
  revert s. induction lineIds as [|lineId rest IH]; intros s; [done|].
  simpl. now rewrite IH, updateLineLabel_undoStack.
Qed.

Lemma foldl_setLatLngs_undoStack (edits : list (string * list LatLng)) (s : State) :
  undoStack (foldl setLatLngs s edits) = undoStack s.
Proof. revert s. induction edits as [|e rest IH]; intros s; [done|]. simpl. now rewrite IH. Qed.

Lemma undo_undoStack (s : State) :
  undoStack (undo distanceTo s) = removelast (undoStack s).
Proof.
  unfold undo. destruct (pop (undoStack s)) as [[action rest]|] eqn:Hpop.
  - apply pop_Some in Hpop. rewrite Hpop, removelast_last.
    destruct action as [lineId|lineId latlngs c n].
    + now rewrite removeLineFromMap_undoStack.
    + unfold restoreLine. now rewrite updateLineLabel_undoStack.
  - destruct (undoStack s) as [|x l] using rev_ind; [done|].
    now rewrite pop_snoc in Hpop.
Qed.

(** X10. How each event changes the undo stack: a finished path pushes a create
    entry, the sidebar's delete of a registered path pushes a snapshot of
    it, Ctrl+Z (or Cmd+Z) takes the last entry off, and nothing else, the
    tool's edits and removals and the clear button included, touches it. *)
Theorem undoStack_step (s : State) (ev : Event) :
  undoStack (step distanceTo s ev) =
  match ev with
  | DrawCreated _ => pushUndo (ActCreate (lineId_of (lineCounter s + 1))) (undoStack s)
  | ClickDelete lineId =>
      match lines s !! lineId with
      | Some d =>
          pushUndo (ActDelete lineId (flattenLatLngs (polyline d)) (color d) (number d))
            (undoStack s)
      | None => undoStack s
      end
  | KeyDown e =>
      if (ctrlKey e || metaKey e) && String.eqb (key e) "z"
      then removelast (undoStack s) else undoStack s
  | DrawEdited _ | DrawDeleted _ | ClickClear => undoStack s
  end.
Proof.
  destruct ev; simpl.
  - unfold onCreated. now rewrite updateLineLabel_undoStack.
  - unfold onEdited. now rewrite foldl_updateLineLabel_undoStack, foldl_setLatLngs_undoStack.
  - apply onDeleted_undoStack.
  - unfold deleteLine. destruct (lines s !! lineId); [|done].
    now rewrite removeLineFromMap_undoStack.
  - done.
  - unfold onKeyDown. destruct ((ctrlKey e || metaKey e) && String.eqb (key e) "z"); [|done].
    apply undo_undoStack.
Qed.

(** X11. In every reachable state a registered path is filed under ["line-"]
    followed by its sequence number, the number lies between 1 and the
    creation counter, and its polyline is a flat vertex array; so two
    registered paths never share a sequence number. *)
Theorem registered_numbers (s : State) :
  reachable distanceTo s →
  (∀ k d, lines s !! k = Some d →
          k = ("line-" ++ string_of_Z (number d))%string ∧
          1 ≤ number d ≤ lineCounter s ∧
          ∃ vertices, polyline d = Flat vertices) ∧
  (∀ k1 k2 d1 d2, lines s !! k1 = Some d1 → lines s !! k2 = Some d2 →
                  number d1 = number d2 → k1 = k2).
Proof.
  intros Hs. pose proof (reachable_Inv distanceTo s Hs) as HI. split.
  - intros k d Hk. destruct (inv_lines _ _ _ HI _ _ Hk) as [(Hid & Hn & _ & Hflat) _]. done.
  - intros k1 k2 d1 d2 H1 H2 Hn.
    destruct (inv_lines _ _ _ HI _ _ H1) as [(Hid1 & _) _].
    destruct (inv_lines _ _ _ HI _ _ H2) as [(Hid2 & _) _]. congruence.
Qed.

(** X12. In every reachable state, undoing a delete entry registers one more
    path, the one of the snapshot (id, vertices, colour, number), without
    replacing a registered path: the entry's id was free, the other paths
    stay, and the entry is gone from the stack. *)
Theorem undo_delete_restores_snapshot (s : State) (rest : list UndoAction)
    (lineId : string) (latlngs : list LatLng) (c : string) (n : Z) :
  reachable distanceTo s →
  undoStack s = rest ++ [ActDelete lineId latlngs c n] →
  let s' := step distanceTo s (KeyDown ctrlZ) in
  lineId = lineId_of n ∧
  lines s !! lineId = None ∧
  (∃ d', lines s' = <[lineId := d']> (lines s) ∧
         polyline d' = Flat latlngs ∧ color d' = c ∧ number d' = n ∧
         synced distanceTo d') ∧
  size (lines s') = S (size (lines s)) ∧
  undoStack s' = rest ∧
  lineCounter s' = lineCounter s.
Proof.
  intros Hs Hstack s'.
  pose proof (inv_stack _ _ _ (reachable_Inv distanceTo s Hs)) as Hall.
  rewrite Hstack in Hall. apply Forall_app in Hall as [_ Hx].
  rewrite Forall_singleton in Hx. destruct Hx as (Hid & _ & _ & Hnone).
  rewrite <- Hid in Hnone. split; [exact Hid|]. split; [exact Hnone|].
  subst s'. change (step distanceTo s (KeyDown ctrlZ)) with (undo distanceTo s).
  rewrite undo_lineCounter, undo_undoStack, Hstack, removelast_last.
  unfold undo. rewrite Hstack, pop_snoc.
  destruct (restoreLine_spec distanceTo latlngs c n (set_undoStack (λ _, rest) s))
    as (ls & Hl & Hls & _).
  rewrite Hl, <- Hid. simpl lines.
  split; [|split; [|done]].
  - eexists. split; [reflexivity|]. simpl. repeat split. exact Hls.
  - now apply map_size_insert_None.
Qed.

Lemma undo_keeps_absent (n : Z) (s : State) :
  lines s !! lineId_of n = None → n ∉ deleteNumbers (undoStack s) →
  lines (undo distanceTo s) !! lineId_of n = None ∧
  n ∉ deleteNumbers (undoStack (undo distanceTo s)).
Proof.
  intros Hnone Hfresh. split.
  - unfold undo. destruct (pop (undoStack s)) as [[action rest]|] eqn:Hpop; [|done].
    apply pop_Some in Hpop. destruct action as [lineId|lineId latlngs c m].
    + rewrite removeLineFromMap_lines. simpl. rewrite lookup_delete_None. now right.
    + destruct (restoreLine_spec distanceTo latlngs c m (set_undoStack (λ _, rest) s))
        as (ls & Hl & _).
      rewrite Hl. simpl. rewrite lookup_insert_ne; [done|].
      intros Heq. apply lineId_of_inj in Heq. subst m.
      apply Hfresh. rewrite Hpop. unfold deleteNumbers. rewrite omap_app. simpl.
      apply elem_of_app. right. apply list_elem_of_here.
  - rewrite undo_undoStack. intros Hin. apply Hfresh.
    eapply elem_of_sublist; [exact Hin|]. apply deleteNumbers_sublist.
    destruct (undoStack s) as [|x l] using rev_ind; [done|].
    rewrite removelast_last. apply sublist_inserts_r. done.
Qed.

Lemma undo_iter_keeps_absent (n : Z) (count : nat) (s : State) :
  lines s !! lineId_of n = None → n ∉ deleteNumbers (undoStack s) →
  lines (Nat.iter count (undo distanceTo) s) !! lineId_of n = None ∧
  n ∉ deleteNumbers (undoStack (Nat.iter count (undo distanceTo) s)).
Proof.
  intros Hnone Hfresh. induction count as [|count [IH1 IH2]]; [done|].
  simpl. now apply undo_keeps_absent.
Qed.

(** X13. A registered path removed by the draw tool's own delete, or by the
    clear button, is gone for good: however often undo is pressed
    afterwards, it does not come back. *)
Theorem removed_without_undo_never_restored (s : State) (k : string)
    (lineIds : list string) (count : nat) :
  reachable distanceTo s →
  is_Some (lines s !! k) →
  (k ∈ lineIds →
   lines (Nat.iter count (undo distanceTo) (step distanceTo s (DrawDeleted lineIds))) !! k
   = None) ∧
  lines (Nat.iter count (undo distanceTo) (step distanceTo s ClickClear)) !! k = None.
Proof.
  intros Hs [d Hd].
  pose proof (reachable_Inv distanceTo s Hs) as HI.
  destruct (inv_lines _ _ _ HI _ _ Hd) as [(Hid & _) _].
  assert (number d ∉ deleteNumbers (undoStack s)) as Hfresh.
  { intros Hin. apply elem_of_deleteNumbers in Hin as (id' & vs & c & Hin).
    pose proof (inv_stack _ _ _ HI) as Hall. rewrite Forall_forall in Hall.
    destruct (Hall _ Hin) as (_ & _ & _ & Hnone). congruence. }
  rewrite Hid. split.
  - intros Hin. apply undo_iter_keeps_absent.
    + simpl. rewrite onDeleted_lookup, decide_True; [done | exact Hin].
    + simpl. now rewrite onDeleted_undoStack.
  - apply undo_iter_keeps_absent; [apply lookup_empty | done].
Qed.

End RegistryMore.

Lemma registered_numbers_witness :
  ∃ d, lines (run taxicab [DrawCreated scenarioPath; DrawCreated [pt 0 0]])
         !! "line-2"%string = Some d ∧
       1 ≤ number d ≤ 2.
Proof.
  pose (s := run taxicab [DrawCreated scenarioPath; DrawCreated [pt 0 0]]).
  destruct (lines s !! "line-2"%string) as [d|] eqn:Hd; [|vm_compute in Hd; discriminate].
  exists d. split; [exact Hd|].
  destruct (registered_numbers taxicab s (run_reachable taxicab _)) as [H _].
  destruct (H "line-2"%string d Hd) as (_ & Hn & _). exact Hn.
Defined.

Lemma undo_delete_restores_snapshot_witness :
  size (lines (step taxicab
                 (run taxicab [DrawCreated scenarioPath; DrawCreated [pt 0 0; pt 1 0];
                               ClickDelete "line-1"])
                 (KeyDown ctrlZ))) = 2%nat.
Proof.
  destruct (undo_delete_restores_snapshot taxicab
              (run taxicab [DrawCreated scenarioPath; DrawCreated [pt 0 0; pt 1 0];
                            ClickDelete "line-1"])
              [ActCreate "line-1"; ActCreate "line-2"] "line-1" scenarioPath "#3388ff" 1
              (run_reachable taxicab _)) as (_ & _ & _ & Hsize & _).
  { vm_compute. reflexivity. }
  rewrite Hsize. vm_compute. reflexivity.
Defined.

Lemma removed_without_undo_never_restored_witness :
  lines (Nat.iter 3 (undo taxicab)
           (step taxicab (run taxicab [DrawCreated scenarioPath; DrawCreated [pt 0 0; pt 1 0];
                                       ClickDelete "line-2"])
              (DrawDeleted ["line-1"%string]))) !! "line-1"%string = None.
Proof.
  destruct (removed_without_undo_never_restored taxicab
              (run taxicab [DrawCreated scenarioPath; DrawCreated [pt 0 0; pt 1 0];
                            ClickDelete "line-2"])
              "line-1" ["line-1"%string] 3 (run_reachable taxicab _)) as [H _].
  { vm_compute. eexists. reflexivity. }
  apply H. apply list_elem_of_here.
Defined.

(** ** The labels layer mirrors the registry *)

Lemma label_eta (l : Label) : mkLabel (label_id l) (label_marker l) = l.
Proof. now destruct l. Qed.

Lemma removeLabels_Some (ls : list Label) (layer : gmap N Marker) (i : N) (m : Marker) :
  removeLabels ls layer !! i = Some m ↔ ¬ (i ∈ label_id <$> ls) ∧ layer !! i = Some m.
Proof.
  unfold removeLabels. revert layer. induction ls as [|l ls IH]; intros layer.
  - simpl. split; [intros Hi; split; [apply not_elem_of_nil | done] | tauto].
  - cbn [foldl]. rewrite IH, lookup_delete_Some, fmap_cons, not_elem_of_cons.
    split.
    + intros (Hnin & Hne & Hi). repeat split; try done; congruence.
    + intros ((Hne & Hnin) & Hi). repeat split; try done; congruence.
Qed.

Lemma extends_refl (r : Rendered) : bounded r → extends r r [].
Proof.
  intros Hb. split; [|split; [|split; [|split]]].
  - now rewrite app_nil_r.
  - lia.
  - constructor.
  - intros l Hl. by apply not_elem_of_nil in Hl.
  - intros i m. split.
    + intros Hi. right. split; [|done]. by eapply Hb.
    + intros [Hin|[_ Hi]]; [by apply not_elem_of_nil in Hin | done].
Qed.

Lemma extends_bounded (r r' : Rendered) (new : list Label) :
  extends r r' new → bounded r'.
Proof.
  intros (_ & Hle & _ & Hnew & Hiff) i m Hi.
  apply Hiff in Hi as [Hin|[Hi _]]; [|lia].
  apply Hnew in Hin. simpl in Hin. lia.
Qed.

Lemma addLabel_extends (m : Marker) (r : Rendered) :
  bounded r → extends r (addLabel m r) [mkLabel (r_lastId r + 1) m].
Proof.
  intros Hb. unfold addLabel. split; [|split; [|split; [|split]]]; simpl.
  - done.
  - lia.
  - apply NoDup_singleton.
  - intros l Hl. apply list_elem_of_singleton in Hl. subst l. simpl. lia.
  - intros i m'. split.
    + intros Hi. destruct (decide (i = r_lastId r + 1)%N) as [->|Hne].
      * rewrite lookup_insert_eq in Hi. injection Hi as ->. left. apply list_elem_of_here.
      * rewrite lookup_insert_ne in Hi by done. right. split; [|done]. by eapply Hb.
    + intros [Hin|[Hle Hi]].
      * apply list_elem_of_singleton in Hin. injection Hin as -> ->. apply lookup_insert_eq.
      * rewrite lookup_insert_ne by lia. done.
Qed.

Lemma extends_trans (r r' r'' : Rendered) (new1 new2 : list Label) :
  extends r r' new1 → extends r' r'' new2 → extends r r'' (new1 ++ new2).
Proof.
  intros (Hl1 & Hle1 & Hnd1 & Hnew1 & Hiff1) (Hl2 & Hle2 & Hnd2 & Hnew2 & Hiff2).
  split; [|split; [|split; [|split]]].
  - now rewrite Hl2, Hl1, app_assoc.
  - lia.
  - rewrite fmap_app. apply NoDup_app. split; [done|]. split; [|done].
    intros i [l1 [-> Hin1]]%list_elem_of_fmap [l2 [Heq Hin2]]%list_elem_of_fmap.
    apply Hnew1 in Hin1. apply Hnew2 in Hin2. lia.
  - intros l [Hin|Hin]%elem_of_app.
    + apply Hnew1 in Hin. lia.
    + apply Hnew2 in Hin. lia.
  - intros i m. rewrite Hiff2, Hiff1, elem_of_app. split.
    + intros [Hin|[Hle [Hin|[Hle' Hi]]]]; auto.
    + intros [[Hin|Hin]|[Hle Hi]]; auto.
      * right. split; [|by left]. apply Hnew1 in Hin. simpl in Hin. lia.
      * right. split; [lia|]. right. done.
Qed.

Section LabelsLayer.

Variable distanceTo : LatLng → LatLng → Q.

Lemma segmentLoop_extends (latlngs : list LatLng) (color : string) (total : Q) (r : Rendered) :
  bounded r → ∃ new, extends r (segmentLoop distanceTo latlngs color total r).2 new.
Proof.
  revert total r. induction latlngs as [|a rest IH]; intros total r Hb.
  - exists []. now apply extends_refl.
  - destruct rest as [|b rest'].
    + exists []. now apply extends_refl.
    + change (segmentLoop distanceTo (a :: b :: rest') color total r)
        with (segmentLoop distanceTo (b :: rest') color
                (total + distanceTo a b * METERS_TO_FEET)%Q
                (addLabel (createSegmentLabel (getSegmentMidpoint a b)
                   (formatTime (distanceTo a b * METERS_TO_FEET / WALKING_SPEED_FT_PER_SEC)%Q)
                   color) r)).
      pose proof (addLabel_extends (createSegmentLabel (getSegmentMidpoint a b)
                   (formatTime (distanceTo a b * METERS_TO_FEET / WALKING_SPEED_FT_PER_SEC)%Q)
                   color) r Hb) as H1.
      destruct (IH (total + distanceTo a b * METERS_TO_FEET)%Q _ (extends_bounded _ _ _ H1))
        as (new & H2).
      eexists. eapply extends_trans; [exact H1 | exact H2].
Qed.

(** What [updateLineLabel] renders for a registered line: its old labels
    leave the layer and the new ones enter it under fresh ids. *)
Lemma updateLineLabel_render (lineId : string) (s : State) (d : LineData) :
  lines s !! lineId = Some d →
  (∀ i m, labelsLayer s !! i = Some m → (i ≤ lastId s)%N) →
  let s' := updateLineLabel distanceTo lineId s in
  ∃ new,
    lines s' = <[lineId := mkLineData (polyline d) new (color d) (number d)]> (lines s) ∧
    extends (mkRendered (removeLabels (labels d) (labelsLayer s)) (lastId s) [])
      (mkRendered (labelsLayer s') (lastId s') new) new.
Proof.
  intros Hd Hb s'. subst s'. unfold updateLineLabel. rewrite Hd.
  set (r0 := mkRendered (removeLabels (labels d) (labelsLayer s)) (lastId s) []).
  assert (bounded r0) as Hb0.
  { intros i m Hi. simpl in Hi. apply removeLabels_Some in Hi as [_ Hi]. simpl. by eapply Hb. }
  destruct (flattenLatLngs (polyline d)) as [|a [|b rest]].
  - exists []. split; [done|]. now apply extends_refl.
  - exists []. split; [done|]. now apply extends_refl.
  - destruct (segmentLoop_extends (a :: b :: rest) (color d) 0 r0 Hb0) as (new & Hext).
    destruct (segmentLoop distanceTo (a :: b :: rest) (color d) 0 r0) as [totalFeet r].
    simpl snd in Hext.
    pose proof (addLabel_extends
                  (createTotalLabel (List.last (a :: b :: rest) a)
                     (formatTime (totalFeet / WALKING_SPEED_FT_PER_SEC)%Q) (color d))
                  r (extends_bounded _ _ _ Hext)) as Hadd.
    pose proof (extends_trans _ _ _ _ _ Hext Hadd) as Hall.
    exists (new ++ [mkLabel (r_lastId r + 1)
                      (createTotalLabel (List.last (a :: b :: rest) a)
                         (formatTime (totalFeet / WALKING_SPEED_FT_PER_SEC)%Q) (color d))]).
    destruct Hall as (Hl & Hrest).
    split.
    + cbn [lines]. now rewrite Hl.
    + split; [reflexivity | exact Hrest].
Qed.

End LabelsLayer.

Lemma LayerInv_eq (s s' : State) :
  lines s' = lines s → labelsLayer s' = labelsLayer s → lastId s' = lastId s →
  LayerInv s → LayerInv s'.
Proof. intros H1 H2 H3 [Ha Hb Hc Hd]. split; rewrite ?H1, ?H2, ?H3; done. Qed.

(** Registry changes that neither add nor drop a label keep the mirror. *)
Lemma LayerInv_relabel (s s' : State) :
  labelsLayer s' = labelsLayer s → lastId s' = lastId s →
  (∀ k d', lines s' !! k = Some d' →
           labels d' = [] ∨ ∃ d, lines s !! k = Some d ∧ labels d = labels d') →
  (∀ k d, lines s !! k = Some d → ∃ d', lines s' !! k = Some d' ∧ labels d' = labels d) →
  LayerInv s → LayerInv s'.
Proof.
  intros Hlayer Hlast Hback Hforth [Ha Hb Hc Hd].
  assert (∀ k d' l, lines s' !! k = Some d' → l ∈ labels d' →
                    ∃ d, lines s !! k = Some d ∧ l ∈ labels d) as Hold.
  { intros k d' l Hk Hl. destruct (Hback k d' Hk) as [Hnil|(d & Hd' & Heq)].
    - rewrite Hnil in Hl. by apply not_elem_of_nil in Hl.
    - exists d. now rewrite Heq. }
  split.
  - intros i m. rewrite Hlayer, Ha. split.
    + intros (k & d & Hk & Hin). destruct (Hforth k d Hk) as (d' & Hk' & Heq).
      exists k, d'. now rewrite Heq.
    + intros (k & d' & Hk & Hin). destruct (Hold k d' _ Hk Hin) as (d & Hk' & Hin'). eauto.
  - intros k1 k2 d1 d2 l1 l2 H1 H2 Hl1 Hl2 Heq.
    destruct (Hold _ _ _ H1 Hl1) as (e1 & He1 & Hin1).
    destruct (Hold _ _ _ H2 Hl2) as (e2 & He2 & Hin2).
    by eapply Hb.
  - intros k d' Hk. destruct (Hback k d' Hk) as [Hnil|(d & Hd' & Heq)].
    + rewrite Hnil. constructor.
    + rewrite <- Heq. by eapply Hc.
  - intros i m. rewrite Hlayer, Hlast. apply Hd.
Qed.

Lemma removeLabels_others (s : State) (lineId : string) (d : LineData) (i : N) (m : Marker) :
  LayerInv s → lines s !! lineId = Some d →
  removeLabels (labels d) (labelsLayer s) !! i = Some m ↔
  ∃ k d0, k ≠ lineId ∧ lines s !! k = Some d0 ∧ mkLabel i m ∈ labels d0.
Proof.
  intros [Ha Hb Hc Hd] Hline. rewrite removeLabels_Some, Ha. split.
  - intros (Hnin & k & d0 & Hk & Hin). exists k, d0. split; [|done].
    intros ->. apply Hnin. rewrite Hline in Hk. injection Hk as <-.
    apply list_elem_of_fmap. exists (mkLabel i m). done.
  - intros (k & d0 & Hne & Hk & Hin). split; [|eauto].
    intros (l & Hi & Hl)%list_elem_of_fmap. apply Hne.
    apply (Hb k lineId d0 d (mkLabel i m) l Hk Hline Hin Hl). done.
Qed.

(** Dropping a registered line together with its labels keeps the mirror. *)
Lemma LayerInv_remove (s s' : State) (lineId : string) (d : LineData) :
  lines s !! lineId = Some d →
  lines s' = delete lineId (lines s) →
  labelsLayer s' = removeLabels (labels d) (labelsLayer s) →
  lastId s' = lastId s →
  LayerInv s → LayerInv s'.
Proof.
  intros Hline Hl Hlayer Hlast HI. pose proof HI as [Ha Hb Hc Hd]. split.
  - intros i m. rewrite Hlayer, (removeLabels_others s lineId d i m HI Hline), Hl. split.
    + intros (k & d0 & Hne & Hk & Hin). exists k, d0. now rewrite lookup_delete_ne.
    + intros (k & d0 & Hk & Hin). apply lookup_delete_Some in Hk as [Hne Hk].
      exists k, d0. done.
  - intros k1 k2 d1 d2 l1 l2. rewrite Hl, !lookup_delete_Some.
    intros [_ H1] [_ H2]. by eapply Hb.
  - intros k d0. rewrite Hl, lookup_delete_Some. intros [_ Hk]. by eapply Hc.
  - intros i m. rewrite Hlayer, Hlast, removeLabels_Some. intros [_ Hi]. by eapply Hd.
Qed.

Section LabelsLayerInvariant.

Variable distanceTo : LatLng → LatLng → Q.

Lemma updateLineLabel_LayerInv (lineId : string) (s : State) :
  LayerInv s → LayerInv (updateLineLabel distanceTo lineId s).
Proof.
  intros HI. destruct (lines s !! lineId) as [d|] eqn:Hline.
  2: { now rewrite updateLineLabel_None. }
  pose proof HI as [Ha Hb Hc Hd].
  destruct (updateLineLabel_render distanceTo lineId s d Hline Hd)
    as (new & Hl & _ & Hle & Hnd & Hnew & Hiff).
  simpl in Hle, Hnew, Hiff.
  assert (∀ k d0 l, lines s !! k = Some d0 → l ∈ labels d0 → (label_id l ≤ lastId s)%N)
    as Hold.
  { intros k d0 l Hk Hin. apply (Hd (label_id l) (label_marker l)).
    apply Ha. exists k, d0. now rewrite label_eta. }
  split.
  - intros i m. rewrite Hiff, Hl. split.
    + intros [Hin|[Hi Hrem]].
      * eexists lineId, _. rewrite lookup_insert_eq. split; [reflexivity | exact Hin].
      * apply (removeLabels_others s lineId d i m HI Hline) in Hrem
          as (k & d0 & Hne & Hk & Hin).
        exists k, d0. now rewrite lookup_insert_ne.
    + intros (k & d0 & Hk & Hin). destruct (decide (k = lineId)) as [->|Hne].
      * rewrite lookup_insert_eq in Hk. injection Hk as <-. now left.
      * rewrite lookup_insert_ne in Hk by done. right. split.
        -- apply (Hold k d0 (mkLabel i m) Hk Hin).
        -- apply (removeLabels_others s lineId d i m HI Hline). eauto.
  - intros k1 k2 d1 d2 l1 l2. rewrite Hl. intros H1 H2 Hl1 Hl2 Heq.
    destruct (decide (k1 = lineId)) as [->|Hne1], (decide (k2 = lineId)) as [->|Hne2];
      try done.
    + rewrite lookup_insert_eq in H1. injection H1 as <-.
      rewrite lookup_insert_ne in H2 by done. simpl in Hl1.
      apply Hnew in Hl1. pose proof (Hold _ _ _ H2 Hl2). lia.
    + rewrite lookup_insert_eq in H2. injection H2 as <-.
      rewrite lookup_insert_ne in H1 by done. simpl in Hl2.
      apply Hnew in Hl2. pose proof (Hold _ _ _ H1 Hl1). lia.
    + rewrite lookup_insert_ne in H1, H2 by done. by eapply Hb.
  - intros k d0. rewrite Hl. destruct (decide (k = lineId)) as [->|Hne].
    + rewrite lookup_insert_eq. intros [= <-]. exact Hnd.
    + rewrite lookup_insert_ne by done. apply Hc.
  - intros i m. rewrite Hiff. intros [Hin|[Hi _]]; [|lia].
    apply Hnew in Hin. simpl in Hin. lia.
Qed.

Lemma removeLineFromMap_LayerInv (lineId : string) (s : State) :
  LayerInv s → LayerInv (removeLineFromMap lineId s).
Proof.
  intros HI. unfold removeLineFromMap. destruct (lines s !! lineId) as [d|] eqn:Hline; [|done].
  by apply (LayerInv_remove s _ lineId d).
Qed.

Lemma onDeleted_LayerInv (lineIds : list string) (s : State) :
  LayerInv s → LayerInv (onDeleted lineIds s).
Proof.
  unfold onDeleted. revert s. induction lineIds as [|lineId rest IH]; intros s HI; [done|].
  cbn [foldl]. apply IH. unfold onDeletedLayer.
  destruct (lines s !! lineId) as [d|] eqn:Hline.
  - by apply (LayerInv_remove s _ lineId d).
  - apply (LayerInv_eq s); try done. simpl. now apply delete_id.
Qed.

Lemma clearAll_LayerInv (s : State) : LayerInv (clearAll s).
Proof.
  split; simpl.
  - intros i m. rewrite lookup_empty. split; [done|].
    intros (k & d & Hk & _). by rewrite lookup_empty in Hk.
  - intros k1 k2 d1 d2 l1 l2 Hk. by rewrite lookup_empty in Hk.
  - intros k d Hk. by rewrite lookup_empty in Hk.
  - intros i m Hi. by rewrite lookup_empty in Hi.
Qed.

(** Registering a line without labels under a free id, then labelling it. *)
Lemma register_LayerInv (lineId : string) (d0 : LineData) (s s0 : State) :
  lines s !! lineId = None → labels d0 = [] →
  lines s0 = <[lineId := d0]> (lines s) →
  labelsLayer s0 = labelsLayer s → lastId s0 = lastId s →
  LayerInv s → LayerInv (updateLineLabel distanceTo lineId s0).
Proof.
  intros Hfree Hnil Hl Hlayer Hlast HI. apply updateLineLabel_LayerInv.
  apply (LayerInv_relabel s); try done.
  - intros k d'. rewrite Hl. destruct (decide (k = lineId)) as [->|Hne].
    + rewrite lookup_insert_eq. intros [= <-]. now left.
    + rewrite lookup_insert_ne by done. intros Hk. right. eauto.
  - intros k d Hk. exists d. split; [|done]. rewrite Hl, lookup_insert_ne; [done|].
    intros ->. congruence.
Qed.

Lemma foldl_setLatLngs_LayerInv (edits : list (string * list LatLng)) (s : State) :
  LayerInv s → LayerInv (foldl setLatLngs s edits).
Proof.
  revert s. induction edits as [|edit rest IH]; intros s HI; [done|].
  cbn [foldl]. apply IH. apply (LayerInv_relabel s); try done.
  - intros k d'. simpl. rewrite lookup_alter. case_decide as Hk.
    + subst k. destruct (lines s !! edit.1) as [d|] eqn:Hd; [|done].
      simpl. intros [= <-]. right. exists d. done.
    + intros Hk'. right. eauto.
  - intros k d Hk. simpl. rewrite lookup_alter. case_decide as Hdec.
    + subst k. rewrite Hk. simpl. eexists. split; [reflexivity | done].
    + eauto.
Qed.

Lemma foldl_updateLineLabel_LayerInv (lineIds : list string) (s : State) :
  LayerInv s → LayerInv (foldl (λ s lineId, updateLineLabel distanceTo lineId s) s lineIds).
Proof.
  revert s. induction lineIds as [|lineId rest IH]; intros s HI; [done|].
  cbn [foldl]. apply IH. now apply updateLineLabel_LayerInv.
Qed.

Lemma step_LayerInv (s : State) (ev : Event) :
  Inv distanceTo clean s → LayerInv s → LayerInv (step distanceTo s ev).
Proof.
  intros HInv HI. destruct ev as [vertices|edits|lineIds|lineId| |e]; simpl.
  - unfold onCreated. eapply (register_LayerInv _ _ s); try done; try reflexivity.
    destruct (lines s !! lineId_of (lineCounter s + 1)) as [d|] eqn:Hd; [|done].
    destruct (inv_lines _ _ _ HInv _ _ Hd) as [(Hid & Hn & _) _].
    apply lineId_of_inj in Hid. lia.
  - unfold onEdited. now apply foldl_updateLineLabel_LayerInv, foldl_setLatLngs_LayerInv.
  - now apply onDeleted_LayerInv.
  - unfold deleteLine. destruct (lines s !! lineId) as [d|] eqn:Hd; [|done].
    apply removeLineFromMap_LayerInv. by apply (LayerInv_eq s).
  - apply clearAll_LayerInv.
  - unfold onKeyDown. destruct ((ctrlKey e || metaKey e) && String.eqb (key e) "z"); [|done].
    unfold undo. destruct (pop (undoStack s)) as [[action rest]|] eqn:Hpop; [|done].
    apply pop_Some in Hpop. destruct action as [lineId|lineId latlngs c n].
    + apply removeLineFromMap_LayerInv. by apply (LayerInv_eq s).
    + unfold restoreLine. eapply (register_LayerInv _ _ s); try done; try reflexivity.
      pose proof (inv_stack _ _ _ HInv) as Hall. rewrite Hpop in Hall.
      apply Forall_app in Hall as [_ Hx]. rewrite Forall_singleton in Hx.
      now destruct Hx as (_ & _ & _ & Hnone).
Qed.

Lemma reachable_LayerInv (s : State) : reachable distanceTo s → LayerInv s.
Proof.
  induction 1 as [|s ev Hs IH].
  - split; simpl.
    + intros i m. rewrite lookup_empty. split; [done|].
      intros (k & d & Hk & _). by rewrite lookup_empty in Hk.
    + intros k1 k2 d1 d2 l1 l2 Hk. by rewrite lookup_empty in Hk.
    + intros k d Hk. by rewrite lookup_empty in Hk.
    + intros i m Hi. by rewrite lookup_empty in Hi.
  - apply step_LayerInv; [now apply reachable_Inv | exact IH].
Qed.

(** X14. In every reachable state the labels layer of the map holds exactly the
    labels of the registered paths: a marker is on the map if and only if
    it is a label of some registered path. No label of a removed path
    stays behind and none of a registered path is missing; with no path
    registered the layer is empty. *)
Theorem labels_layer_mirrors_registry (s : State) :
  reachable distanceTo s →
  (∀ id m, labelsLayer s !! id = Some m ↔
           ∃ k d label, lines s !! k = Some d ∧ label ∈ labels d ∧
                        label_id label = id ∧ label_marker label = m) ∧
  (lines s = ∅ → labelsLayer s = ∅).
Proof.
  intros Hs. destruct (reachable_LayerInv s Hs) as [Ha _ _ _].
  assert (∀ id m, labelsLayer s !! id = Some m ↔
           ∃ k d label, lines s !! k = Some d ∧ label ∈ labels d ∧
                        label_id label = id ∧ label_marker label = m) as Hiff.
  { intros i m. rewrite Ha. split.
    - intros (k & d & Hk & Hin). exists k, d, (mkLabel i m). done.
    - intros (k & d & l & Hk & Hin & <- & <-). exists k, d. now rewrite label_eta. }
  split; [exact Hiff|].
  intros Hempty. apply map_eq. intros i. rewrite lookup_empty.
  destruct (labelsLayer s !! i) as [m|] eqn:Hi; [|done].
  apply Hiff in Hi as (k & d & _ & Hk & _). rewrite Hempty in Hk. by rewrite lookup_empty in Hk.
Qed.

(** X15. In every reachable state the labels' ids are pairwise distinct, within a
    path and across paths, and none lies beyond Leaflet's id counter; so
    removing one path's labels from the map never takes another path's
    label along. *)
Theorem label_ids_unique (s : State) :
  reachable distanceTo s →
  (∀ k d, lines s !! k = Some d → NoDup (label_id <$> labels d)) ∧
  (∀ k1 k2 d1 d2 l1 l2,
     lines s !! k1 = Some d1 → lines s !! k2 = Some d2 →
     l1 ∈ labels d1 → l2 ∈ labels d2 → label_id l1 = label_id l2 →
     k1 = k2 ∧ l1 = l2) ∧
  (∀ k d l, lines s !! k = Some d → l ∈ labels d → (label_id l ≤ lastId s)%N).
Proof.
  intros Hs. destruct (reachable_LayerInv s Hs) as [Ha Hb Hc Hd].
  split; [exact Hc|]. split.
  - intros k1 k2 d1 d2 l1 l2 H1 H2 Hl1 Hl2 Heq.
    split; [by eapply Hb|].
    assert (labelsLayer s !! label_id l1 = Some (label_marker l1)) as E1.
    { apply Ha. exists k1, d1. now rewrite label_eta. }
    assert (labelsLayer s !! label_id l2 = Some (label_marker l2)) as E2.
    { apply Ha. exists k2, d2. now rewrite label_eta. }
    rewrite Heq in E1. rewrite E1 in E2. injection E2 as E2.
    rewrite <- (label_eta l1), <- (label_eta l2). congruence.
  - intros k d l Hk Hin. apply (Hd (label_id l) (label_marker l)).
    apply Ha. exists k, d. now rewrite label_eta.
Qed.

End LabelsLayerInvariant.

Lemma labels_layer_mirrors_registry_witness :
  labelsLayer (run taxicab [DrawCreated scenarioPath; DrawCreated [pt 0 0; pt 1 0];
                            ClickDelete "line-1"; DrawDeleted ["line-2"%string]]) = ∅.
Proof.
  apply (labels_layer_mirrors_registry taxicab _ (run_reachable taxicab _)).
  vm_compute. reflexivity.
Defined.

Lemma label_ids_unique_witness :
  ∃ d, lines (run taxicab [DrawCreated scenarioPath; ClickDelete "line-1"; KeyDown ctrlZ])
         !! "line-1"%string = Some d ∧
       NoDup (label_id <$> labels d).
Proof.
  pose (s := run taxicab [DrawCreated scenarioPath; ClickDelete "line-1"; KeyDown ctrlZ]).
  destruct (lines s !! "line-1"%string) as [d|] eqn:Hd; [|vm_compute in Hd; discriminate].
  exists d. split; [exact Hd|].
  destruct (label_ids_unique taxicab s (run_reachable taxicab _)) as (H & _).
  apply (H "line-1"%string d Hd).
Defined.

(** ** The summary panel *)

Section SummaryFacts.

Variable distanceTo : LatLng → LatLng → Q.
Variable toLocaleString : Z → string.
Variable toFixed2 : Q → string.

Hypothesis distanceTo_nonneg : ∀ a b, (0 <= distanceTo a b)%Q.




End SummaryFacts.


(** ** More on time formatting *)

Lemma Math_round_monotone (x y : Q) : (x <= y)%Q → Math_round x ≤ Math_round y.
Proof. intros H. unfold Math_round. apply Qfloor_resp_le. lra. Qed.

(** X17. From half a minute on, both forms print the same whole number of
    minutes [N], at least 1, the short form as ["<N>m"]; from a minute and a
    half on [N] is at least 2 and the long form is ["<N> min"]. Neither
    form ever prints a zero. *)
Theorem formatTime_minutes (seconds : Q) :
  (30 # 1 <= seconds)%Q →
  let n := Math_round (seconds / (60 # 1)) in
  1 ≤ n ∧
  formatTime seconds = (string_of_Z n ++ "m")%string ∧
  ((90 # 1 <= seconds)%Q →
   2 ≤ n ∧ formatTimeLong seconds = (string_of_Z n ++ " min")%string).
Proof.
  intros H30 n.
  assert (1 ≤ n) as H1.
  { rewrite <- (Math_round_minutes_1 (30 # 1)) by lra.
    apply Math_round_monotone. apply Qmult_le_compat_r; [lra | vm_compute; discriminate]. }
  split; [exact H1|]. split.
  - unfold formatTime. fold n. destruct (Z.eqb_spec n 0); [lia | done].
  - intros H90.
    assert (2 ≤ n) as H2.
    { assert (Math_round ((90 # 1) / (60 # 1)) = 2) as <- by reflexivity.
      apply Math_round_monotone. apply Qmult_le_compat_r; [lra | vm_compute; discriminate]. }
    split; [exact H2|].
    unfold formatTimeLong. fold n.
    destruct (Z.eqb_spec n 0); [lia|]. destruct (Z.eqb_spec n 1); [lia | done].
Qed.

Lemma formatTime_minutes_witness :
  formatTime (243 # 1) = "4m"%string ∧ formatTimeLong (243 # 1) = "4 min"%string.
Proof.
  assert (H30 : (30 # 1 <= 243 # 1)%Q) by (vm_compute; discriminate).
  destruct (formatTime_minutes (243 # 1) H30) as (_ & Hshort & Hlong).
  split; [exact Hshort|]. apply Hlong. vm_compute. discriminate.
Defined.

(** X18. More seconds never print fewer minutes. *)
Theorem minutes_monotone (seconds seconds' : Q) :
  (seconds <= seconds')%Q →
  Math_round (seconds / (60 # 1)) ≤ Math_round (seconds' / (60 # 1)).
Proof.
  intros H. apply Math_round_monotone.
  apply Qmult_le_compat_r; [exact H | vm_compute; discriminate].
Qed.

Lemma minutes_monotone_witness :
  Math_round ((100 # 1) / (60 # 1)) ≤ Math_round ((243 # 1) / (60 # 1)).
Proof. apply minutes_monotone. vm_compute. discriminate. Defined.

(** ** The colour of a path being drawn *)

Section Preview.

Variable distanceTo : LatLng → LatLng → Q.

Lemma foldl_step_lineCounter (evs : list Event) (s : State) :
  Forall (λ ev, isCreated ev = false) evs →
  lineCounter (foldl (step distanceTo) s evs) = lineCounter s.
Proof.
  revert s. induction evs as [|ev evs IH]; intros s Hall; [done|].
  inversion Hall as [|? ? Hev Hrest]; subst.
  cbn [foldl]. rewrite IH by done. rewrite step_lineCounter, Hev. lia.
Qed.

(** X19. The colour in which a path is previewed when its drawing starts is the
    colour it is registered with when it is finished, whatever happens in
    between short of another path being finished (edits, removals, clear,
    undo). *)
Theorem preview_color_is_final (s : State) (evs : list Event) (vertices : list LatLng) :
  Forall (λ ev, isCreated ev = false) evs →
  let s1 := foldl (step distanceTo) s evs in
  let s2 := step distanceTo s1 (DrawCreated vertices) in
  ∃ d, lines s2 !! lineId_of (lineCounter s + 1) = Some d ∧
       color d = previewColor (lineCounter s).
Proof.
  intros Hall s1 s2.
  destruct (onCreated_spec distanceTo vertices s1) as (ls & Hl & _).
  subst s2. simpl step. rewrite Hl. subst s1. rewrite foldl_step_lineCounter by done.
  eexists. rewrite lookup_insert_eq. split; [reflexivity|]. simpl.
  unfold lineColor, previewColor. do 3 f_equal. lia.
Qed.

End Preview.

Lemma preview_color_is_final_witness :
  ∃ d, lines (run taxicab [DrawCreated scenarioPath; ClickDelete "line-1"; KeyDown ctrlZ;
                           DrawCreated [pt 0 0; pt 1 1]]) !! "line-2"%string = Some d ∧
       color d = "#ff6b6b"%string.
Proof.
  destruct (preview_color_is_final taxicab (run taxicab [DrawCreated scenarioPath])
              [ClickDelete "line-1"; KeyDown ctrlZ] [pt 0 0; pt 1 1]) as (d & Hd & Hc).
  { repeat constructor. }
  exists d. split; [exact Hd|]. rewrite Hc. vm_compute. reflexivity.
Defined.

(** ** The undo stack in the engine's states *)

Section UndoStackBound.

Variable distanceTo : LatLng → LatLng → Q.

Lemma createdCount_creates (paths : list (list LatLng)) :
  createdCount (DrawCreated <$> paths) = Z.of_nat (length paths).
Proof.
  unfold createdCount. f_equal.
  induction paths as [|vertices rest IH]; [done|].
  rewrite fmap_cons. cbn [List.filter isCreated length]. now rewrite IH.
Qed.

(** The stack after finishing a series of paths from the start: the create
    entries pushed one by one. *)
Lemma undoStack_creates (paths : list (list LatLng)) :
  undoStack (run distanceTo (DrawCreated <$> paths))
  = foldl (λ stack action, pushUndo action stack) []
      ((λ i, ActCreate (lineId_of (Z.of_nat i))) <$> seq 1 (length paths)).
Proof.
  induction paths as [|vertices paths IH] using rev_ind; [done|].
  rewrite fmap_app. simpl fmap. rewrite run_snoc.
  destruct (onCreated_spec distanceTo vertices (run distanceTo (DrawCreated <$> paths)))
    as (ls & _ & _ & Hu & _).
  simpl step. rewrite Hu, IH, run_lineCounter, createdCount_creates.
  rewrite length_app. simpl length. rewrite Nat.add_1_r, seq_S, fmap_app, foldl_app.
  simpl. do 3 f_equal. lia.
Qed.

(** C4. The undo stack holds at most 10 entries in every reachable state.
    Finishing a path and the sidebar's delete push their entry with
    [pushUndo], which appends at the back and, once over capacity, drops
    the oldest entry at the front. Ctrl+Z takes the most recent entry off
    the back of the state's stack and undoes that entry (and does nothing
    on an empty stack). Pushing 11 actions leaves the 10 most recent, also
    in the engine: after 11 paths the stack holds the create entries of
    paths 2 to 11. *)
Theorem undoStack_bounded :
  (∀ s, reachable distanceTo s → (length (undoStack s) ≤ 10)%nat) ∧
  (∀ s vertices,
     undoStack (step distanceTo s (DrawCreated vertices))
     = pushUndo (ActCreate (lineId_of (lineCounter s + 1))) (undoStack s)) ∧
  (∀ s lineId d, lines s !! lineId = Some d →
     undoStack (step distanceTo s (ClickDelete lineId))
     = pushUndo (ActDelete lineId (flattenLatLngs (polyline d)) (color d) (number d))
         (undoStack s)) ∧
  (∀ action stack, (length stack < 10)%nat →
     pushUndo action stack = stack ++ [action]) ∧
  (∀ action stack, (length stack = 10)%nat →
     pushUndo action stack = tail stack ++ [action]) ∧
  (∀ s rest action, undoStack s = rest ++ [action] →
     undoStack (step distanceTo s (KeyDown ctrlZ)) = rest ∧
     match action with
     | ActCreate lineId =>
         lines (step distanceTo s (KeyDown ctrlZ)) = delete lineId (lines s)
     | ActDelete _ latlngs c n =>
         ∃ ls, lines (step distanceTo s (KeyDown ctrlZ))
               = <[lineId_of n := mkLineData (Flat latlngs) ls c n]> (lines s)
     end) ∧
  (∀ s, undoStack s = [] → step distanceTo s (KeyDown ctrlZ) = s) ∧
  (∀ oldest actions, (length actions = 10)%nat →
     foldl (λ stack action, pushUndo action stack) [] (oldest :: actions) = actions) ∧
  (∀ actions, foldl (λ stack action, pushUndo action stack) [] actions
              = drop (length actions - 10) actions) ∧
  (∀ paths, (length paths = 11)%nat →
     undoStack (run distanceTo (DrawCreated <$> paths))
     = (λ i, ActCreate (lineId_of (Z.of_nat i))) <$> seq 2 10).
Proof.
  split; [|split; [|split; [|split; [|split; [|split; [|split; [|split; [|split]]]]]]]].
  - intros s Hs. apply (inv_length _ _ _ (reachable_Inv distanceTo s Hs)).
  - intros s vertices.
    now destruct (onCreated_spec distanceTo vertices s) as (ls & _ & _ & Hu & _).
  - intros s lineId d Hd. now destruct (deleteLine_spec lineId s d Hd) as (_ & Hu & _).
  - intros action stack H. now apply pushUndo_room.
  - intros action stack H. apply pushUndo_full. unfold MAX_UNDO. lia.
  - intros s rest action Hstack.
    change (step distanceTo s (KeyDown ctrlZ)) with (undo distanceTo s).
    split; [now rewrite undo_undoStack, Hstack, removelast_last|].
    unfold undo. rewrite Hstack, pop_snoc.
    destruct action as [lineId|lineId latlngs c n].
    + now rewrite removeLineFromMap_lines.
    + destruct (restoreLine_spec distanceTo latlngs c n (set_undoStack (λ _, rest) s))
        as (ls & Hl & _).
      exists ls. exact Hl.
  - intros s Hempty. change (step distanceTo s (KeyDown ctrlZ)) with (undo distanceTo s).
    now apply undo_empty.
  - intros oldest actions H. rewrite pushUndo_foldl. simpl length. rewrite H. reflexivity.
  - apply pushUndo_foldl.
  - intros paths Hlen. rewrite undoStack_creates, pushUndo_foldl, length_fmap, length_seq, Hlen.
    reflexivity.
Qed.

End UndoStackBound.

Lemma undoStack_bounded_witness :
  length (undoStack (run taxicab tenPaths)) = 10%nat ∧
  (length (undoStack (step taxicab (run taxicab tenPaths) (DrawCreated scenarioPath)))
   ≤ 10)%nat ∧
  undoStack (step taxicab (run taxicab tenPaths) (DrawCreated scenarioPath))
  = tail (undoStack (run taxicab tenPaths)) ++ [ActCreate "line-11"] ∧
  undoStack (step taxicab (step taxicab (run taxicab tenPaths) (DrawCreated scenarioPath))
               (KeyDown ctrlZ))
  = tail (undoStack (run taxicab tenPaths)) ∧
  lines (step taxicab (step taxicab (run taxicab tenPaths) (DrawCreated scenarioPath))
           (KeyDown ctrlZ))
  = delete "line-11"%string
      (lines (step taxicab (run taxicab tenPaths) (DrawCreated scenarioPath))).
Proof.
  destruct (undoStack_bounded taxicab)
    as (Hbound & Hcreate & _ & _ & Hfull & Hpop & _).
  assert (length (undoStack (run taxicab tenPaths)) = 10%nat) as Hten
    by (vm_compute; reflexivity).
  assert (undoStack (step taxicab (run taxicab tenPaths) (DrawCreated scenarioPath))
          = tail (undoStack (run taxicab tenPaths)) ++ [ActCreate "line-11"]) as Hpush.
  { rewrite Hcreate. rewrite (Hfull _ _ Hten). do 3 f_equal. }
  split; [exact Hten|]. split; [|split; [exact Hpush|]].
  - apply Hbound. constructor. apply run_reachable.
  - destruct (Hpop _ _ _ Hpush) as [Hu Hl]. split; [exact Hu | exact Hl].
Defined.

(** ** The midpoint by arc length, stated on the vertices *)

Section MidpointInterpolation.

Variable distanceTo : LatLng → LatLng → Q.



End MidpointInterpolation.


